(** * clusterrouter: the delayed, rate-limited, de-duplicating work queue
      (package [queue]) and the pod request arithmetic (package [utils]).

    The queue keeps its pending items in a [container/list] ordered by
    [plannedToStartWorkAt], an index from key to list element, and a map
    of the items that a worker is processing.  All of that state is
    guarded by one mutex, so every operation below is one critical
    section, given as a function from the state before to the state
    after.  A [panic] is an explicit result. *)

From Stdlib Require Import ZArith Lia.
From stdpp Require Import base option list sorting gmap fin_maps strings.

Local Open Scope Z_scope.

(** ** Results of operations that may panic *)

Inductive result (A : Type) : Type :=
  | Ok (a : A)
  | Panic (msg : string).
Arguments Ok {A} a.
Arguments Panic {A} msg.

Definition is_panic {A} (r : result A) : Prop :=
  match r with Ok _ => False | Panic _ => True end.

Definition bind {A B} (r : result A) (f : A -> result B) : result B :=
  match r with
  | Ok a => f a
  | Panic msg => Panic msg
  end.

Definition ok_or {A} (d : A) (r : result A) : A :=
  match r with
  | Ok a => a
  | Panic _ => d
  end.

Module WorkQueue.

(** MaxRetries is the number of times we try to process a given key before
    permanently forgetting it. *)
Definition MaxRetries : Z := 20.

(** Go's [int] on the 64-bit targets the project builds for. *)
Definition int_min : Z := - 2 ^ 63.
Definition int_max : Z := 2 ^ 63 - 1.
Definition int_wrap (z : Z) : Z := (z - int_min) mod 2 ^ 64 + int_min.
Definition int_add (a b : Z) : Z := int_wrap (a + b).
Definition is_int (z : Z) : Prop := int_min <= z <= int_max.

(** [time.Time] is an instant counted in nanoseconds from the zero time,
    so [IsZero] is a comparison with [0]; [time.Duration] is a signed
    number of nanoseconds.  Both are unbounded integers here: the range
    limits of the two Go types are not modelled. *)
Definition Time := Z.
Definition Duration := Z.

Definition IsZero (t : Time) : bool := t =? 0.
Definition Before (t u : Time) : bool := t <? u.
Definition After (t u : Time) : bool := t >? u.
Definition Add (t : Time) (d : Duration) : Time := t + d.

(** The two time sources the code reads during one critical section:
    [q.clock.Now()], the clock injected into the queue, and
    [time.Now()], the process clock that [time.Until] reads. *)
Record instant : Type := mkInstant {
  clockNow : Time;
  wallNow : Time
}.

(** [time.Until(t)] is [t.Sub(time.Now())]. *)
Definition Until (now : instant) (t : Time) : Duration := t - wallNow now.

(** ** Items *)

Record queueItem : Type := mkItem {
  key : string;
  plannedToStartWorkAt : Time;
  redirtiedAt : Time;
  redirtiedWithRatelimit : bool;
  forget : bool;
  requeues : Z;
  (* Debugging information only *)
  originallyAdded : Time;
  addedViaRedirty : bool;
  delayedViaRateLimit : option Duration
}.

#[export] Instance queueItem_inhabited : Inhabited queueItem :=
  populate (mkItem "" 0 0 false false 0 0 false None).

Definition set_plannedToStartWorkAt (t : Time) (it : queueItem) : queueItem :=
  mkItem (key it) t (redirtiedAt it) (redirtiedWithRatelimit it) (forget it)
         (requeues it) (originallyAdded it) (addedViaRedirty it)
         (delayedViaRateLimit it).

Definition set_redirtied (t : Time) (rl : bool) (it : queueItem) : queueItem :=
  mkItem (key it) (plannedToStartWorkAt it) t rl (forget it)
         (requeues it) (originallyAdded it) (addedViaRedirty it)
         (delayedViaRateLimit it).

Definition set_forget (b : bool) (it : queueItem) : queueItem :=
  mkItem (key it) (plannedToStartWorkAt it) (redirtiedAt it)
         (redirtiedWithRatelimit it) b
         (requeues it) (originallyAdded it) (addedViaRedirty it)
         (delayedViaRateLimit it).

Definition set_requeues (n : Z) (it : queueItem) : queueItem :=
  mkItem (key it) (plannedToStartWorkAt it) (redirtiedAt it)
         (redirtiedWithRatelimit it) (forget it)
         n (originallyAdded it) (addedViaRedirty it)
         (delayedViaRateLimit it).

Definition set_originallyAdded (t : Time) (it : queueItem) : queueItem :=
  mkItem (key it) (plannedToStartWorkAt it) (redirtiedAt it)
         (redirtiedWithRatelimit it) (forget it)
         (requeues it) t (addedViaRedirty it)
         (delayedViaRateLimit it).

Definition set_addedViaRedirty (b : bool) (it : queueItem) : queueItem :=
  mkItem (key it) (plannedToStartWorkAt it) (redirtiedAt it)
         (redirtiedWithRatelimit it) (forget it)
         (requeues it) (originallyAdded it) b
         (delayedViaRateLimit it).

Definition set_delayedViaRateLimit (d : option Duration) (it : queueItem)
  : queueItem :=
  mkItem (key it) (plannedToStartWorkAt it) (redirtiedAt it)
         (redirtiedWithRatelimit it) (forget it)
         (requeues it) (originallyAdded it) (addedViaRedirty it) d.

(** A [*queueItem] is a location in the store of items.  A [*list.Element]
    is identified with the [*queueItem] it carries: the code creates every
    element together with its item and never changes an element's value. *)
Definition ptr := nat.

(** ** The rate limiter ([workqueue.RateLimiter]) *)

Class RateLimiter (R : Type) : Type := {
  rl_When : string -> R -> Duration * R;
  rl_Forget : string -> R -> R;
  rl_NumRequeues : string -> R -> Z
}.

(** The calls the queue makes on its rate limiter, kept as a history. *)
Inductive rl_call : Type :=
  | CallWhen (k : string)
  | CallForget (k : string).

(** ** [container/list] on elements without repetition *)

Definition PushFront (v : ptr) (l : list ptr) : list ptr := v :: l.

Fixpoint InsertAfter (v mark : ptr) (l : list ptr) : list ptr :=
  match l with
  | [] => []
  | e :: l' =>
      if decide (e = mark) then e :: v :: l' else e :: InsertAfter v mark l'
  end.

Fixpoint Remove (e : ptr) (l : list ptr) : list ptr :=
  match l with
  | [] => []
  | x :: l' => if decide (x = e) then l' else x :: Remove e l'
  end.

(** [if e.list != l || e == mark || mark.list != l { return }] *)
Definition MoveAfter (e mark : ptr) (l : list ptr) : list ptr :=
  if negb (bool_decide (e ∈ l)) || bool_decide (e = mark)
     || negb (bool_decide (mark ∈ l))
  then l
  else InsertAfter e mark (Remove e l).

(** [if e.list != l || l.root.next == e { return }] *)
Definition MoveToFront (e : ptr) (l : list ptr) : list ptr :=
  if negb (bool_decide (e ∈ l)) || bool_decide (head l = Some e)
  then l
  else e :: Remove e l.

(** The elements met by [for prev := e.Prev(); prev != nil; prev = prev.Prev()],
    nearest first. *)
Fixpoint before (e : ptr) (l : list ptr) : list ptr :=
  match l with
  | [] => []
  | x :: l' => if decide (x = e) then [] else x :: before e l'
  end.

Definition Prevs (e : ptr) (l : list ptr) : list ptr := reverse (before e l).

(** ** The queue *)

Section queue.
Context {R : Type} `{!RateLimiter R}.

Record Queue : Type := mkQueue {
  running : bool;
  ratelimiter : R;
  (* history of the calls made on [ratelimiter], oldest first *)
  ratelimiterCalls : list rl_call;
  (* the [queueItem] objects allocated so far *)
  store : gmap ptr queueItem;
  nextPtr : ptr;
  (* items are items that are marked dirty waiting for processing. *)
  items : list ptr;
  (* itemInQueue is a map of (string) key -> item while it is in the items list *)
  itemsInQueue : gmap string ptr;
  (* itemsBeingProcessed is a map of (string) key -> item once it has been moved *)
  itemsBeingProcessed : gmap string ptr;
  (* wakeupCh has capacity 1: [true] when a token is buffered *)
  wakeupCh : bool
}.

Definition set_running (b : bool) (q : Queue) : Queue :=
  mkQueue b (ratelimiter q) (ratelimiterCalls q) (store q) (nextPtr q)
          (items q) (itemsInQueue q) (itemsBeingProcessed q) (wakeupCh q).

Definition set_ratelimiter (r : R) (c : list rl_call) (q : Queue) : Queue :=
  mkQueue (running q) r c (store q) (nextPtr q)
          (items q) (itemsInQueue q) (itemsBeingProcessed q) (wakeupCh q).

Definition set_store (s : gmap ptr queueItem) (q : Queue) : Queue :=
  mkQueue (running q) (ratelimiter q) (ratelimiterCalls q) s (nextPtr q)
          (items q) (itemsInQueue q) (itemsBeingProcessed q) (wakeupCh q).

Definition set_nextPtr (n : ptr) (q : Queue) : Queue :=
  mkQueue (running q) (ratelimiter q) (ratelimiterCalls q) (store q) n
          (items q) (itemsInQueue q) (itemsBeingProcessed q) (wakeupCh q).

Definition set_items (l : list ptr) (q : Queue) : Queue :=
  mkQueue (running q) (ratelimiter q) (ratelimiterCalls q) (store q) (nextPtr q)
          l (itemsInQueue q) (itemsBeingProcessed q) (wakeupCh q).

Definition set_itemsInQueue (m : gmap string ptr) (q : Queue) : Queue :=
  mkQueue (running q) (ratelimiter q) (ratelimiterCalls q) (store q) (nextPtr q)
          (items q) m (itemsBeingProcessed q) (wakeupCh q).

Definition set_itemsBeingProcessed (m : gmap string ptr) (q : Queue) : Queue :=
  mkQueue (running q) (ratelimiter q) (ratelimiterCalls q) (store q) (nextPtr q)
          (items q) (itemsInQueue q) m (wakeupCh q).

Definition set_wakeupCh (b : bool) (q : Queue) : Queue :=
  mkQueue (running q) (ratelimiter q) (ratelimiterCalls q) (store q) (nextPtr q)
          (items q) (itemsInQueue q) (itemsBeingProcessed q) b.

(** New creates a queue *)
Definition New (ratelimiter : R) : Queue :=
  mkQueue false ratelimiter [] ∅ 0%nat [] ∅ ∅ false.

(** Reading and writing through a [*queueItem]. *)
Definition deref (q : Queue) (p : ptr) : queueItem := store q !!! p.

Definition assign (p : ptr) (f : queueItem -> queueItem) (q : Queue) : Queue :=
  set_store (<[p := f (deref q p)]> (store q)) q.

(** [&queueItem{...}] *)
Definition alloc (val : queueItem) (q : Queue) : ptr * Queue :=
  (nextPtr q,
   set_nextPtr (S (nextPtr q)) (set_store (<[nextPtr q := val]> (store q)) q)).

Definition ratelimiter_When (k : string) (q : Queue) : Duration * Queue :=
  let '(d, r) := rl_When k (ratelimiter q) in
  (d, set_ratelimiter r (ratelimiterCalls q ++ [CallWhen k]) q).

Definition ratelimiter_Forget (k : string) (q : Queue) : Queue :=
  set_ratelimiter (rl_Forget k (ratelimiter q))
                  (ratelimiterCalls q ++ [CallForget k]) q.

(** [select { case q.wakeupCh <- struct{}{}: default: }] *)
Definition send_wakeup (q : Queue) : Queue := set_wakeupCh true q.

(** Forget forgets the key *)
Definition Forget (k : string) (q : Queue) : Queue :=
  match itemsInQueue q !! k with
  | Some item =>
      set_items (Remove item (items q))
                (set_itemsInQueue (delete k (itemsInQueue q)) q)
  | None =>
      match itemsBeingProcessed q !! k with
      | Some qi => assign qi (set_forget true) q
      | None => q
      end
  end.

(** The first of the candidates that plans to start work strictly before
    [t]: the test of both backward scans of the items list. *)
Fixpoint firstBefore (q : Queue) (t : Time) (candidates : list ptr)
  : option ptr :=
  match candidates with
  | [] => None
  | item :: rest =>
      if Before (plannedToStartWorkAt (deref q item)) t then Some item
      else firstBefore q t rest
  end.

Definition adjustPosition (element : ptr) (when : Time) (q : Queue) : Queue :=
  if After when (plannedToStartWorkAt (deref q element)) then
    (* The item has already been delayed appropriately *)
    q
  else
    let q1 := assign element (set_plannedToStartWorkAt when) q in
    match firstBefore q1 when (Prevs element (items q1)) with
    | Some prev => set_items (MoveAfter element prev (items q1)) q1
    | None => set_items (MoveToFront element (items q1)) q1
    end.

(** The tail of [insert]: the scan from [q.items.Back()] that links the new
    item into the list and records its element in the index. *)
Definition link (val : queueItem) (q : Queue) : ptr * Queue :=
  let '(p, q1) := alloc val q in
  match firstBefore q1 (plannedToStartWorkAt val) (reverse (items q1)) with
  | Some item =>
      (p, set_itemsInQueue (<[key val := p]> (itemsInQueue q1))
            (set_items (InsertAfter p item (items q1)) q1))
  | None =>
      (p, set_itemsInQueue (<[key val := p]> (itemsInQueue q1))
            (set_items (PushFront p (items q1)) q1))
  end.

(** insert inserts a new item to be processed at time time. It will not
    further delay items if when is later than the original time the item
    was scheduled to be processed. If when is earlier, it will "bring it
    forward" *)
Definition insert (now : instant) (k : string) (ratelimit : bool)
    (delay : Duration) (q : Queue) : result (ptr * Queue) :=
  match itemsBeingProcessed q !! k with
  | Some item =>
      (* First see if the item is already being processed *)
      let when := Add (clockNow now) delay in
      let q1 :=
        if IsZero (redirtiedAt (deref q item)) then
          assign item (set_redirtied when ratelimit) q
        else if Before when (redirtiedAt (deref q item)) then
          assign item (set_redirtied when ratelimit) q
        else q in
      Ok (item, send_wakeup (assign item (set_forget false) q1))
  | None =>
  match itemsInQueue q !! k with
  | Some item =>
      (* Is the item already in the queue? *)
      let when := Add (clockNow now) delay in
      Ok (item, send_wakeup (adjustPosition item when q))
  | None =>
      let val :=
        mkItem k (clockNow now) 0 false false 0 (clockNow now) false None in
      if ratelimit then
        if delay >? 0 then
          Panic "Non-zero delay with rate limiting not supported"
        else
          let '(ratelimitDelay, q1) := ratelimiter_When k q in
          let val1 :=
            set_delayedViaRateLimit (Some ratelimitDelay)
              (set_plannedToStartWorkAt
                 (Add (plannedToStartWorkAt val) ratelimitDelay) val) in
          let '(p, q2) := link val1 q1 in
          Ok (p, send_wakeup q2)
      else
        let val1 :=
          set_plannedToStartWorkAt (Add (plannedToStartWorkAt val) delay) val in
        let '(p, q2) := link val1 q in
        Ok (p, send_wakeup q2)
  end
  end.

(** Enqueue enqueues the key in a rate limited fashion *)
Definition Enqueue (now : instant) (k : string) (q : Queue) : result Queue :=
  bind (insert now k true 0 q) (fun r => Ok (snd r)).

(** EnqueueWithoutRateLimit enqueues the key without a rate limit *)
Definition EnqueueWithoutRateLimit (now : instant) (k : string) (q : Queue)
  : result Queue :=
  bind (insert now k false 0 q) (fun r => Ok (snd r)).

(** EnqueueWithoutRateLimitWithDelay enqueues without rate limiting, but work
    will not start for this given delay period *)
Definition EnqueueWithoutRateLimitWithDelay (now : instant) (k : string)
    (after : Duration) (q : Queue) : result Queue :=
  bind (insert now k false after q) (fun r => Ok (snd r)).

(** Len includes items that are in the queue, and are being processed *)
Definition Len (q : Queue) : result Z :=
  if bool_decide (length (items q) = size (itemsInQueue q)) then
    Ok (Z.of_nat (length (items q)) + Z.of_nat (size (itemsBeingProcessed q)))
  else Panic "Internally inconsistent state".

(** Empty returns if the queue has no items in it *)
Definition Empty (q : Queue) : result bool :=
  bind (Len q) (fun n => Ok (n =? 0)).

(** Run starts the workers.  [Run_start] is the part of [Run] that comes
    before the workers are spawned, [Run_finish] the deferred reset of
    [running]; the workers in between run concurrently with the callers
    of the queue and are the steps [getNextItem_step] and
    [handleQueueItemObject] below. *)
Definition Run_start (workers : Z) (q : Queue) : result Queue :=
  if workers <=? 0 then Panic "Workers must be greater than 0"
  else if running q then Panic "Queue is already running"
  else Ok (set_running true q).


(** One pass of the loop of [getNextItem] under the lock. *)
Inductive nextItem : Type :=
  | Picked (qi : ptr)          (* return qi, nil *)
  | WaitWakeup                 (* the list is empty: wait for a wakeup *)
  | WaitTimer (d : Duration).  (* q.clock.NewTimer(d), then wait *)

Definition getNextItem_step (now : instant) (q : Queue) : nextItem * Queue :=
  match head (items q) with
  | None => (WaitWakeup, q)
  | Some element =>
      let qi := deref q element in
      let timeUntilProcessing := Until now (plannedToStartWorkAt qi) in
      (* Do we need to sleep? If not, let's party. *)
      if timeUntilProcessing <=? 0 then
        (Picked element,
         set_itemsInQueue (delete (key qi) (itemsInQueue q))
           (set_items (Remove element (items q))
              (set_itemsBeingProcessed
                 (<[key qi := element]> (itemsBeingProcessed q)) q)))
      else (WaitTimer timeUntilProcessing, q)
  end.

(** The handler's error, and [pkgerrors.Wrapf]. *)
Inductive error : Type :=
  | HandlerError (msg : string)
  | Wrapf (cause : error) (msg : string).

(** The critical section of [handleQueueItemObject]: what happens under the
    lock after [q.handler] has returned [err] for the item [qi]. *)
Definition handleQueueItemObject (now : instant) (err : option error)
    (qi : ptr) (q : Queue) : result (option error * Queue) :=
  let q1 :=
    set_itemsBeingProcessed
      (delete (key (deref q qi)) (itemsBeingProcessed q)) q in
  if forget (deref q1 qi) then
    Ok (None, ratelimiter_Forget (key (deref q1 qi)) q1)
  else
    let finish (err : option error) : result (option error * Queue) :=
      (* We've exceeded the maximum retries or we were successful. *)
      let q2 := ratelimiter_Forget (key (deref q1 qi)) q1 in
      if negb (IsZero (redirtiedAt (deref q2 qi))) then
        bind (insert now (key (deref q2 qi))
                (redirtiedWithRatelimit (deref q2 qi))
                (Until now (redirtiedAt (deref q2 qi))) q2)
             (fun '(newQI, q3) =>
                Ok (err, assign newQI (set_addedViaRedirty true) q3))
      else Ok (err, q2) in
    match err with
    | Some e =>
        if int_add (requeues (deref q1 qi)) 1 <? MaxRetries then
          (* Put the item back on the work Queue to handle any transient errors. *)
          bind (insert now (key (deref q1 qi)) true 0 q1)
               (fun '(newQI, q2) =>
                  let q3 :=
                    assign newQI
                      (set_requeues (int_add (requeues (deref q2 qi)) 1)) q2 in
                  let q4 :=
                    assign newQI
                      (set_originallyAdded (originallyAdded (deref q3 qi))) q3 in
                  Ok (None, q4))
        else
          finish (Some (Wrapf e "forgetting due to maximum retries reached"))
    | None => finish None
    end.

(** *** A worker without concurrent producers

    [getNextItem], [handleQueueItem] and [worker] for one worker that runs
    alone, with the production clock ([clock.RealClock], so both time
    sources agree).  The context is never cancelled.  A timer wait ends
    when the timer fires, [d] later; a wait for a wakeup on the empty list
    never ends, because nobody enqueues.  The handler takes no time. *)
Inductive waited : Type :=
  | Got (qi : ptr) (t : Time) (q : Queue)
  | Blocked (q : Queue)
  | NoFuel.

Fixpoint getNextItem (fuel : nat) (t : Time) (q : Queue) : waited :=
  match fuel with
  | O => NoFuel
  | S fuel' =>
      match getNextItem_step (mkInstant t t) q with
      | (Picked qi, q1) => Got qi t q1
      | (WaitWakeup, q1) => Blocked q1
      | (WaitTimer d, q1) => getNextItem fuel' (t + d) q1
      end
  end.

(** What a run of the worker leaves behind: the keys the handler was
    invoked with, in order, and how the run ended. *)
Inductive ending : Type :=
  | Waiting (q : Queue)      (* inside getNextItem, on the empty list *)
  | Unfinished.              (* the fuel of the model ran out *)

Fixpoint worker (fuel : nat) (handler : string -> option error)
    (t : Time) (q : Queue) (invoked : list string)
  : result (ending * list string) :=
  match fuel with
  | O => Ok (Unfinished, invoked)
  | S fuel' =>
      match getNextItem 2 t q with
      | NoFuel => Ok (Unfinished, invoked)
      | Blocked q1 => Ok (Waiting q1, invoked)
      | Got qi t1 q1 =>
          let k := key (deref q1 qi) in
          bind (handleQueueItemObject (mkInstant t1 t1) (handler k) qi q1)
               (fun '(_, q2) => worker fuel' handler t1 q2 (invoked ++ [k]))
      end
  end.

(** ** State invariants *)

Definition le_planned (q : Queue) (p1 p2 : ptr) : Prop :=
  plannedToStartWorkAt (deref q p1) <= plannedToStartWorkAt (deref q p2).

(** The keys and the planned times of the pending items, front first. *)
Definition pendingKeys (q : Queue) : list string :=
  (fun p => key (deref q p)) <$> items q.

Definition pendingTimes (q : Queue) : list Time :=
  (fun p => plannedToStartWorkAt (deref q p)) <$> items q.

Definition occurrences (k : string) (l : list string) : nat :=
  length (filter (fun k' => k' = k) l).

(** The invariant the operations maintain.  It ties every index entry to
    the element it points to, which the statements about keys alone
    (below) follow from. *)
Record queue_inv (q : Queue) : Prop := mkInv {
  inv_nodup : NoDup (items q);
  inv_alloc : forall p, p ∈ items q -> (p < nextPtr q)%nat;
  inv_index : forall k p,
    itemsInQueue q !! k = Some p <-> p ∈ items q /\ key (deref q p) = k;
  inv_inflight : forall k p,
    itemsBeingProcessed q !! k = Some p ->
    (p < nextPtr q)%nat /\ key (deref q p) = k;
  inv_exclusive : forall k,
    is_Some (itemsInQueue q !! k) ->
    is_Some (itemsBeingProcessed q !! k) -> False;
  inv_sorted : StronglySorted (le_planned q) (items q)
}.

(** The invariants on keys and times, as statements about the state. *)
Definition indexed_iff_once (q : Queue) : Prop :=
  forall k, is_Some (itemsInQueue q !! k) <->
            occurrences k (pendingKeys q) = 1%nat.

Definition never_both (q : Queue) : Prop :=
  forall k, ~ (is_Some (itemsInQueue q !! k) /\
               is_Some (itemsBeingProcessed q !! k)).

Definition sorted_by_planned (q : Queue) : Prop :=
  Sorted Z.le (pendingTimes q).

(** Items are allocated in the order in which they are inserted, so among
    pending items with equal planned times, insertion order is the order
    of their locations. *)
Definition ties_in_insertion_order (q : Queue) : Prop :=
  forall i j p1 p2,
    (i < j)%nat -> items q !! i = Some p1 -> items q !! j = Some p2 ->
    plannedToStartWorkAt (deref q p1) = plannedToStartWorkAt (deref q p2) ->
    (p1 < p2)%nat.

Definition state_invariants (q : Queue) : Prop :=
  indexed_iff_once q /\ never_both q /\ sorted_by_planned q.

(** The states of a run in which one key is the only work: [k] alone is
    pending with [j] requeues behind it, and nothing is left. *)
Definition lone_pending (k : string) (j : Z) (q : Queue) : Prop :=
  exists p,
    items q = [p] /\ itemsInQueue q = {[k := p]} /\
    itemsBeingProcessed q = ∅ /\ queue_inv q /\
    requeues (deref q p) = j /\ forget (deref q p) = false /\
    redirtiedAt (deref q p) = 0.

Definition idle (q : Queue) : Prop :=
  items q = [] /\ itemsInQueue q = ∅ /\ itemsBeingProcessed q = ∅.

(** An operation keeps the invariants when it returns, and returns a
    state in which they hold. *)
Definition keeps_invariants (r : result Queue) : Prop :=
  match r with
  | Ok q' => queue_inv q' /\ state_invariants q'
  | Panic _ => False
  end.

(** ** The completion re-insert in the words of the specification

    "On success (or exhausted retries), if [item.redirtiedAt] is non-zero:
    [insert(key, ratelimit=item.redirtiedWithRatelimit,
    delay=max(0, redirtiedAt - now))], mark the new item
    [addedViaRedirty = true]. Also call [rateLimiter.forget(key)] exactly
    once in this path."  Here for an item whose forget flag is clear. *)
Definition reinsert_redirtied_spec (now : Time) (err : option error)
    (qi : ptr) (q : Queue) : result (option error * Queue) :=
  let it := deref q qi in
  let q1 := set_itemsBeingProcessed (delete (key it) (itemsBeingProcessed q)) q in
  let q2 := ratelimiter_Forget (key it) q1 in
  bind (insert (mkInstant now now) (key it) (redirtiedWithRatelimit it)
          (Z.max 0 (redirtiedAt it - now)) q2)
       (fun '(newQI, q3) => Ok (err, assign newQI (set_addedViaRedirty true) q3)).

(** ** Further notions for the properties of the code *)

(** The marks that only an item in the hands of a worker carries: no
    pending item is forgotten or re-dirtied. *)
Definition pending_fresh (q : Queue) : Prop :=
  forall p, p ∈ items q ->
    forget (deref q p) = false /\ redirtiedAt (deref q p) = 0.

(** The keys the queue knows: pending or being processed. *)
Definition known (k : string) (q : Queue) : Prop :=
  is_Some (itemsInQueue q !! k) \/ is_Some (itemsBeingProcessed q !! k).

(** [case <-q.wakeupCh:] of the waits in [getNextItem]: the receive takes
    the buffered token, and is [None] when it would block. *)
Definition recv_wakeup (q : Queue) : option Queue :=
  if wakeupCh q then Some (set_wakeupCh false q) else None.

End queue.

Arguments Queue R : clear implicits.

(** ** Rate limiters for concrete runs *)

(** No delay at all. *)
#[export] Instance noLimiter : RateLimiter unit :=
  {| rl_When := fun _ r => (0, r);
     rl_Forget := fun _ r => r;
     rl_NumRequeues := fun _ _ => 0 |}.

(** Per-key doubling of a base delay of 5ms, reset by Forget. *)
#[export] Instance backoffLimiter : RateLimiter (gmap string nat) :=
  {| rl_When := fun k r =>
       (5000000 * 2 ^ Z.of_nat (default 0%nat (r !! k)),
        <[k := S (default 0%nat (r !! k))]> r);
     rl_Forget := fun k r => delete k r;
     rl_NumRequeues := fun k r => Z.of_nat (default 0%nat (r !! k)) |}.

(** ** States of concrete runs *)

(** The production clock: both time sources read [t]. *)
Definition at_time (t : Time) : instant := mkInstant t t.

(** "a" enqueued at time 0, then "b" at the same instant. *)
Definition pending_a : Queue unit :=
  ok_or (New tt) (EnqueueWithoutRateLimit (at_time 0) "a" (New tt)).

Definition pending_a_then_b : Queue unit :=
  ok_or pending_a (EnqueueWithoutRateLimit (at_time 0) "b" pending_a).

(** "b" and then "a" enqueued at time 0, both with a delay of 5. *)
Definition delayed_b : Queue unit :=
  ok_or (New tt) (EnqueueWithoutRateLimitWithDelay (at_time 0) "b" 5 (New tt)).

Definition delayed_b_then_a : Queue unit :=
  ok_or delayed_b
    (EnqueueWithoutRateLimitWithDelay (at_time 0) "a" 5 delayed_b).

(** A worker has picked up "a" at time 0. *)
Definition processing_a : Queue unit :=
  (getNextItem_step (at_time 0) pending_a).2.

(** "a" enqueued again at time 5, while it is being processed. *)
Definition redirtied_a : Queue unit :=
  ok_or processing_a (EnqueueWithoutRateLimit (at_time 5) "a" processing_a).

(** "a" forgotten at time 6, after the enqueue at time 5. *)
Definition forgotten_a : Queue unit := Forget "a" redirtied_a.

(** The same run as [processing_a] with the backing-off limiter and a
    rate-limited enqueue. *)
Definition processing_a_limited : Queue (gmap string nat) :=
  (getNextItem_step (at_time 5000000)
     (ok_or (New ∅) (Enqueue (at_time 0) "a" (New ∅)))).2.

End WorkQueue.

(** * The logger carried by a context (package [log]) *)

Module Log.

Section log.
(** The non-nil values of the interface type [Logger]. *)
Variable Logger : Type.

(** The keys of context values: [loggerKey{}], which no other package
    can name, and the keys of the other packages. *)
Inductive key : Type :=
  | loggerKey
  | foreignKey (n : nat).

#[export] Instance key_eq_dec : EqDecision key.
Proof. solve_decision. Defined.

(** The values a context holds ([interface{}]): nil, a [Logger], or
    something that is not a [Logger]. *)
Inductive any : Type :=
  | anyNil
  | aLogger (l : Logger)
  | notLogger (n : nat).

(** [context.Context] as far as values go: the empty context and
    [context.WithValue]; [Value] returns the value of the nearest
    matching key and nil when there is none. *)
Inductive Context : Type :=
  | Background
  | WithValue (parent : Context) (k : key) (val : any).

Fixpoint Value (ctx : Context) (k : key) : any :=
  match ctx with
  | Background => anyNil
  | WithValue parent k' val => if decide (k' = k) then val else Value parent k
  end.

(** A [Logger] as an [interface{}]; [None] is the nil [Logger]. *)
Definition toAny (logger : option Logger) : any :=
  match logger with
  | Some l => aLogger l
  | None => anyNil
  end.

(** WithLogger returns a new context with the provided logger. *)
Definition WithLogger (ctx : Context) (logger : option Logger) : Context :=
  WithValue ctx loggerKey (toAny logger).

(** GetLogger retrieves the current logger from the context. If no logger
    is available, the default logger is returned.  [L] is the package
    variable of that name. *)
Definition GetLogger (L : option Logger) (ctx : Context) : result Logger :=
  match Value ctx loggerKey with
  | anyNil =>
      match L with
      | None => Panic "default logger not initialized"
      | Some l => Ok l
      end
  | aLogger l => Ok l
  | notLogger _ => Panic "interface conversion: not a Logger"
  end.

(** G is an alias for GetLogger. *)
Definition G := GetLogger.

(** Values that other packages put on top of a context. *)
Definition WithForeign (vals : list (nat * any)) (ctx : Context) : Context :=
  foldr (fun kv ctx => WithValue ctx (foreignKey kv.1) kv.2) ctx vals.

(** The contexts that code outside of the package can build. *)
Inductive reachable : Context -> Prop :=
  | reachable_Background : reachable Background
  | reachable_WithLogger ctx logger :
      reachable ctx -> reachable (WithLogger ctx logger)
  | reachable_WithValue ctx n val :
      reachable ctx -> reachable (WithValue ctx (foreignKey n) val).

End log.

Arguments anyNil {Logger}.
Arguments notLogger {Logger} n.
Arguments Background {Logger}.

End Log.

(** * Pod requests (package [utils]) *)

Module Utils.

(** The value of a [resource.Quantity], counted in its smallest unit;
    [Add] and [Cmp] are exact on [resource.Quantity] and [DeepCopy] keeps
    the value, so formats and representations are left out.
    [corev1.ResourceList] is [map[ResourceName]Quantity]. *)
Abbreviation Quantity := Z.
Definition DeepCopy (q : Quantity) : Quantity := q.
Definition Cmp (q v : Quantity) : Z :=
  match q ?= v with Lt => -1 | Eq => 0 | Gt => 1 end.
Abbreviation ResourceList := (gmap string Z).

Record ResourceRequirements : Type := mkResources {
  Limits : ResourceList;
  Requests : ResourceList
}.

Record Container : Type := mkContainer {
  Resources : ResourceRequirements
}.

(** [Overhead] is [None] for the nil map. *)
Record PodSpec : Type := mkPodSpec {
  InitContainers : list Container;
  Containers : list Container;
  Overhead : option ResourceList
}.

Record Pod : Type := mkPod {
  Spec : PodSpec
}.

(** addResourceList adds the resources in newList to list *)
Definition addResourceList (list newList : ResourceList) : ResourceList :=
  map_fold (fun name quantity list =>
              match list !! name with
              | None => <[name := DeepCopy quantity]> list
              | Some value => <[name := value + quantity]> list
              end) list newList.

(** maxResourceList sets list to the greater of list/newList for every
    resource either list *)
Definition maxResourceList (list new : ResourceList) : ResourceList :=
  map_fold (fun name quantity list =>
              match list !! name with
              | None => <[name := DeepCopy quantity]> list
              | Some value =>
                  if Cmp quantity value >? 0 then
                    <[name := DeepCopy quantity]> list
                  else list
              end) list new.

Section pods.
(** [utilfeature.DefaultFeatureGate.Enabled("PodOverhead")], and
    [common.ConvertResource], whose package is not part of the sources at
    hand; it returns a [*common.Resource], [None] being nil. *)
Variable PodOverheadEnabled : bool.
Variable Resource : Type.
Variable ConvertResource : ResourceList -> option Resource.

(** PodRequestsAndLimits returns a dictionary of all defined resources summed
    up for all containers of the pod. If PodOverhead feature is enabled, pod
    overhead is added to the total container resource requests and to the
    total container limits which have a non-zero quantity. *)
Definition PodRequestsAndLimits (pod : Pod) : ResourceList * ResourceList :=
  let '(reqs, limits) :=
    foldl (fun '(reqs, limits) container =>
             (addResourceList reqs (Requests (Resources container)),
              addResourceList limits (Limits (Resources container))))
          (∅, ∅) (Containers (Spec pod)) in
  (* init containers define the minimum of any resource *)
  let '(reqs, limits) :=
    foldl (fun '(reqs, limits) container =>
             (maxResourceList reqs (Requests (Resources container)),
              maxResourceList limits (Limits (Resources container))))
          (reqs, limits) (InitContainers (Spec pod)) in
  match Overhead (Spec pod) with
  | Some overhead =>
      if PodOverheadEnabled then
        (addResourceList reqs overhead,
         map_fold (fun name quantity limits =>
                     match limits !! name with
                     | Some value =>
                         if negb (value =? 0) then
                           <[name := value + quantity]> limits
                         else limits
                     | None => limits
                     end) limits overhead)
      else (reqs, limits)
  | None => (reqs, limits)
  end.

(** GetRequestFromPod get resources required by pod *)
Definition GetRequestFromPod (pod : option Pod) : option Resource :=
  match pod with
  | None => None
  | Some pod =>
      let '(reqs, _) := PodRequestsAndLimits pod in
      let capacity := ConvertResource reqs in
      capacity
  end.

(** ** The requests of a pod, resource by resource

    The quantities that the containers of a list request for one
    resource, the sum over the containers and the greatest of the init
    containers' requests. *)
Definition requested (name : string) (cs : list Container) : list Quantity :=
  omap (fun c => Requests (Resources c) !! name) cs.

Definition total (l : list Quantity) : Quantity := foldr Z.add 0 l.

Definition greatest (x : Quantity) (l : list Quantity) : Quantity :=
  foldr Z.max x l.

Definition containerRequest (pod : Pod) (name : string) : option Quantity :=
  match requested name (Containers (Spec pod)),
        requested name (InitContainers (Spec pod)) with
  | [], [] => None
  | [], i :: inits => Some (greatest i inits)
  | c :: cs, inits => Some (greatest (total (c :: cs)) inits)
  end.

(** The overhead that counts: the pod's, when the feature is enabled. *)
Definition countedOverhead (pod : Pod) (name : string) : option Quantity :=
  match Overhead (Spec pod) with
  | Some overhead => if PodOverheadEnabled then overhead !! name else None
  | None => None
  end.

Definition withOverhead (r o : option Quantity) : option Quantity :=
  match r, o with
  | Some v, Some q => Some (v + q)
  | Some v, None => Some v
  | None, o => o
  end.

End pods.

(** What one pass of [maxResourceList] leaves for a resource. *)
Definition greater (r o : option Quantity) : option Quantity :=
  match r, o with
  | Some v, Some q => Some (Z.max v q)
  | Some v, None => Some v
  | None, o => o
  end.

(** A pod for concrete runs: one container that requests 1 cpu, one init
    container that requests 3 cpu, and an overhead of 1 cpu. *)
Definition cpu (n : Quantity) : Container :=
  mkContainer (mkResources ∅ {[ "cpu" := n ]}).

Definition small_pod : Pod :=
  mkPod (mkPodSpec [] [cpu 1] (Some {[ "cpu" := 1 ]})).

Definition init_pod : Pod :=
  mkPod (mkPodSpec [cpu 3] [cpu 1; cpu 1] None).

(** ** The limits of a pod, resource by resource *)

Definition limited (name : string) (cs : list Container) : list Quantity :=
  omap (fun c => Limits (Resources c) !! name) cs.

Definition containerLimit (pod : Pod) (name : string) : option Quantity :=
  match limited name (Containers (Spec pod)),
        limited name (InitContainers (Spec pod)) with
  | [], [] => None
  | [], i :: inits => Some (greatest i inits)
  | c :: cs, inits => Some (greatest (total (c :: cs)) inits)
  end.

(** The overhead goes on top of a limit that is set and not zero. *)
Definition limitWithOverhead (l o : option Quantity) : option Quantity :=
  match l, o with
  | Some v, Some q => if v =? 0 then Some v else Some (v + q)
  | l, _ => l
  end.

(** A container with requests and limits for one resource. *)
Definition bounded (name : string) (request limit : Quantity) : Container :=
  mkContainer (mkResources {[ name := limit ]} {[ name := request ]}).

End Utils.

(** * Properties of the work queue *)

Import WorkQueue.

(** ** The list operations *)

Section list_facts.
Implicit Types (l : list ptr) (e v mark x : ptr).

Lemma Remove_middle l1 l2 e :
  (e ∉ l1) -> Remove e (l1 ++ e :: l2) = l1 ++ l2.
Proof.
  induction l1 as [|x l1 IH]; simpl; intros Hnot.
  - by rewrite decide_True.
  - rewrite not_elem_of_cons in Hnot. destruct Hnot as [Hne Hnot].
    rewrite decide_False by done. by rewrite IH.
Qed.

Lemma Remove_absent l e : (e ∉ l) -> Remove e l = l.
Proof.
  induction l as [|x l IH]; simpl; intros Hnot; [done|].
  rewrite not_elem_of_cons in Hnot. destruct Hnot as [Hne Hnot].
  rewrite decide_False by done. by rewrite IH.
Qed.

Lemma InsertAfter_middle l1 l2 v mark :
  (mark ∉ l1) -> InsertAfter v mark (l1 ++ mark :: l2) = l1 ++ mark :: v :: l2.
Proof.
  induction l1 as [|x l1 IH]; simpl; intros Hnot.
  - by rewrite decide_True.
  - rewrite not_elem_of_cons in Hnot. destruct Hnot as [Hne Hnot].
    rewrite decide_False by done. by rewrite IH.
Qed.

Lemma before_middle l1 l2 e : (e ∉ l1) -> before e (l1 ++ e :: l2) = l1.
Proof.
  induction l1 as [|x l1 IH]; simpl; intros Hnot.
  - by rewrite decide_True.
  - rewrite not_elem_of_cons in Hnot. destruct Hnot as [Hne Hnot].
    rewrite decide_False by done. by rewrite IH.
Qed.

(** A list without repetition splits around each of its elements. *)
Lemma NoDup_split l e :
  NoDup l -> e ∈ l ->
  exists l1 l2, l = l1 ++ e :: l2 /\ (e ∉ l1) /\ (e ∉ l2) /\ NoDup (l1 ++ l2).
Proof.
  intros Hnd Hin. apply list_elem_of_split in Hin as (l1 & l2 & ->).
  exists l1, l2. rewrite NoDup_app, NoDup_cons in Hnd.
  destruct Hnd as (Hnd1 & Hdisj & Hnot & Hnd2).
  split_and!; [done| |done|].
  - intros Hin. apply (Hdisj _ Hin). by left.
  - rewrite NoDup_app. split_and!; [done| |done].
    intros x Hx Hx2. apply (Hdisj _ Hx). by right.
Qed.

Lemma MoveAfter_middle a b l2 e mark :
  NoDup (a ++ mark :: b ++ e :: l2) ->
  MoveAfter e mark (a ++ mark :: b ++ e :: l2) = a ++ mark :: e :: b ++ l2.
Proof.
  intros Hnd. unfold MoveAfter.
  assert (e ≠ mark /\ (e ∉ a) /\ (e ∉ b) /\ (mark ∉ a)) as (Hne & Ha & Hb & Hma).
  { rewrite NoDup_app, NoDup_cons, NoDup_app, NoDup_cons in Hnd.
    destruct Hnd as (_ & Hdisj & Hm & _ & Hdisj2 & _).
    split_and!.
    - intros ->. apply Hm. set_solver.
    - intros Hin. apply (Hdisj _ Hin). set_solver.
    - intros Hin. apply (Hdisj2 _ Hin). set_solver.
    - intros Hin. apply (Hdisj _ Hin). set_solver. }
  rewrite bool_decide_eq_true_2 by set_solver.
  rewrite (bool_decide_eq_false_2 (e = mark)) by done.
  rewrite bool_decide_eq_true_2 by set_solver. simpl.
  replace (a ++ mark :: b ++ e :: l2) with ((a ++ mark :: b) ++ e :: l2)
    by (by rewrite <- app_assoc).
  rewrite Remove_middle.
  - rewrite <- app_assoc. simpl. by rewrite InsertAfter_middle.
  - rewrite elem_of_app, elem_of_cons. intros [Hin|[Heq|Hin]]; tauto.
Qed.

Lemma MoveToFront_middle l1 l2 e :
  (e ∉ l1) -> MoveToFront e (l1 ++ e :: l2) = e :: l1 ++ l2.
Proof.
  intros Hnot. unfold MoveToFront.
  rewrite bool_decide_eq_true_2 by set_solver. simpl.
  destruct l1 as [|x l1]; simpl.
  - by rewrite bool_decide_eq_true_2.
  - rewrite not_elem_of_cons in Hnot. destruct Hnot as [Hne Hnot].
    rewrite bool_decide_eq_false_2 by congruence.
    rewrite decide_False by done. by rewrite Remove_middle.
Qed.

(** Insertion of an element between the part it follows and the part it
    precedes keeps a list sorted. *)
Lemma StronglySorted_insert_middle (Rel : relation ptr) l1 l2 v :
  StronglySorted Rel (l1 ++ l2) ->
  Forall (fun x => Rel x v) l1 -> Forall (Rel v) l2 ->
  StronglySorted Rel (l1 ++ v :: l2).
Proof.
  rewrite !StronglySorted_app, StronglySorted_cons.
  intros (Hcross & Hs1 & Hs2) H1 H2. split_and!; [|done|done|done].
  intros x1 x2 Hx1 Hx2. rewrite elem_of_cons in Hx2.
  destruct Hx2 as [->|Hx2]; [|by apply Hcross].
  by eapply Forall_forall in H1.
Qed.

Lemma StronglySorted_drop_middle (Rel : relation ptr) l1 l2 v :
  StronglySorted Rel (l1 ++ v :: l2) -> StronglySorted Rel (l1 ++ l2).
Proof.
  rewrite !StronglySorted_app, StronglySorted_cons.
  intros (Hcross & Hs1 & _ & Hs2). split_and!; [|done|done].
  intros x1 x2 Hx1 Hx2. apply Hcross; [done|]. by right.
Qed.

(** Sortedness only looks at the relation on the elements of the list. *)
Lemma StronglySorted_rel_on (Rel Rel' : relation ptr) l :
  (forall x y, x ∈ l -> y ∈ l -> Rel x y -> Rel' x y) ->
  StronglySorted Rel l -> StronglySorted Rel' l.
Proof.
  induction l as [|x l IH]; intros Himp Hs; [constructor|].
  apply StronglySorted_cons in Hs as [Hall Hs].
  apply StronglySorted_cons. split.
  - apply Forall_forall. intros y Hy. apply Himp; [by left|by right|].
    by eapply Forall_forall in Hall.
  - apply IH; [|done]. intros y z Hy Hz. apply Himp; by right.
Qed.

End list_facts.

(** ** The store and the scans *)

Section queue_facts.
Context {R : Type} `{!RateLimiter R}.
Implicit Types (q : Queue R) (k : string) (p e item : ptr) (t when : Time).

Lemma deref_assign q p f p' :
  deref (assign p f q) p' = if decide (p = p') then f (deref q p) else deref q p'.
Proof.
  unfold deref, assign. simpl. rewrite lookup_total_insert.
  by destruct (decide (p = p')) as [->|].
Qed.

Lemma deref_alloc q val p' :
  deref (alloc val q).2 p' = if decide (nextPtr q = p') then val else deref q p'.
Proof. unfold deref, alloc. simpl. by rewrite lookup_total_insert. Qed.

Lemma firstBefore_Some q t c m :
  firstBefore q t c = Some m ->
  exists c1 c2, c = c1 ++ m :: c2 /\
    plannedToStartWorkAt (deref q m) < t /\
    Forall (fun p => t <= plannedToStartWorkAt (deref q p)) c1.
Proof.
  induction c as [|x c IH]; simpl; [done|].
  unfold Before. destruct (Z.ltb_spec (plannedToStartWorkAt (deref q x)) t) as [Hlt|Hge].
  - intros [= ->]. exists [], c. by split_and!.
  - intros Hc. destruct (IH Hc) as (c1 & c2 & -> & Hm & Hall).
    exists (x :: c1), c2. split_and!; [done|done|]. by constructor.
Qed.

Lemma firstBefore_None q t c :
  firstBefore q t c = None ->
  Forall (fun p => t <= plannedToStartWorkAt (deref q p)) c.
Proof.
  induction c as [|x c IH]; simpl; [by constructor|].
  unfold Before. destruct (Z.ltb_spec (plannedToStartWorkAt (deref q x)) t) as [Hlt|Hge];
    [done|].
  intros Hc. constructor; [done|by apply IH].
Qed.

(** The scan from the back of a list: the hit is the last element planned
    strictly before [t]. *)
Lemma scan_back_Some q t l m :
  firstBefore q t (reverse l) = Some m ->
  exists l1 l2, l = l1 ++ m :: l2 /\
    plannedToStartWorkAt (deref q m) < t /\
    Forall (fun p => t <= plannedToStartWorkAt (deref q p)) l2.
Proof.
  intros Hc. apply firstBefore_Some in Hc as (c1 & c2 & Hrev & Hm & Hall).
  exists (reverse c2), (reverse c1). split_and!; [|done|by rewrite Forall_reverse].
  rewrite <- (reverse_involutive l), Hrev, reverse_app, reverse_cons.
  by rewrite <- app_assoc.
Qed.

Lemma scan_back_None q t l :
  firstBefore q t (reverse l) = None ->
  Forall (fun p => t <= plannedToStartWorkAt (deref q p)) l.
Proof. intros Hc. apply firstBefore_None in Hc. by rewrite Forall_reverse in Hc. Qed.

(** ** The invariant *)

Lemma queue_inv_New (r : R) : queue_inv (New r).
Proof.
  split; simpl.
  - constructor.
  - intros p Hp. by apply elem_of_nil in Hp.
  - intros k p. rewrite lookup_empty. split; [done|].
    intros [Hp _]. by apply elem_of_nil in Hp.
  - intros k p. by rewrite lookup_empty.
  - intros k [p Hp]. by rewrite lookup_empty in Hp.
  - constructor.
Qed.

(** The invariant reads the store only through the keys and the planned
    times of the items. *)
Lemma queue_inv_ext q q' :
  items q' = items q -> nextPtr q' = nextPtr q ->
  itemsInQueue q' = itemsInQueue q ->
  itemsBeingProcessed q' = itemsBeingProcessed q ->
  (forall p, key (deref q' p) = key (deref q p)) ->
  (forall p, plannedToStartWorkAt (deref q' p) = plannedToStartWorkAt (deref q p)) ->
  queue_inv q -> queue_inv q'.
Proof.
  intros Hi Hn Hq Hb Hk Ht [Hnd Hal Hix Hfl Hex Hso].
  split; rewrite ?Hi, ?Hn, ?Hq, ?Hb; try done.
  - intros k p. rewrite Hk. apply Hix.
  - intros k p. rewrite Hk. apply Hfl.
  - eapply StronglySorted_rel_on; [|exact Hso].
    intros x y _ _. unfold le_planned. by rewrite !Ht.
Qed.

Lemma queue_inv_assign q p f :
  (forall it, key (f it) = key it) ->
  (forall it, plannedToStartWorkAt (f it) = plannedToStartWorkAt it) ->
  queue_inv q -> queue_inv (assign p f q).
Proof.
  intros Hk Ht. apply queue_inv_ext; try done.
  - intros p'. rewrite deref_assign. case_decide; [subst; apply Hk|done].
  - intros p'. rewrite deref_assign. case_decide; [subst; apply Ht|done].
Qed.

Lemma queue_inv_ratelimiter_Forget q k :
  queue_inv q -> queue_inv (ratelimiter_Forget k q).
Proof. by apply queue_inv_ext. Qed.

Lemma queue_inv_send_wakeup q : queue_inv q -> queue_inv (send_wakeup q).
Proof. by apply queue_inv_ext. Qed.

Lemma queue_inv_ratelimiter_When q k :
  queue_inv q -> queue_inv (ratelimiter_When k q).2.
Proof.
  unfold ratelimiter_When. destruct (rl_When k (ratelimiter q)) as [d r].
  by apply queue_inv_ext.
Qed.

(** Under the invariant the element of a pending key is in the list, and a
    key that is being processed has no element. *)
Lemma inv_pending_elem q k p :
  queue_inv q -> itemsInQueue q !! k = Some p ->
  p ∈ items q /\ key (deref q p) = k.
Proof. intros Hinv. apply (inv_index q Hinv). Qed.

Lemma inv_inflight_not_pending q k p :
  queue_inv q -> itemsBeingProcessed q !! k = Some p ->
  itemsInQueue q !! k = None.
Proof.
  intros Hinv Hb. destruct (itemsInQueue q !! k) as [p'|] eqn:Hq; [|done].
  exfalso. apply (inv_exclusive q Hinv k); by eexists.
Qed.

End queue_facts.

(** ** Linking a new item *)

Section link_facts.
Context {R : Type} `{!RateLimiter R}.
Implicit Types (q : Queue R) (k : string) (p e item : ptr) (t when : Time).

Lemma link_spec q val :
  queue_inv q ->
  exists l1 l2,
    items q = l1 ++ l2 /\
    Forall (fun p => plannedToStartWorkAt (deref q p) < plannedToStartWorkAt val) l1 /\
    Forall (fun p => plannedToStartWorkAt val <= plannedToStartWorkAt (deref q p)) l2 /\
    link val q =
      (nextPtr q,
       mkQueue (running q) (ratelimiter q) (ratelimiterCalls q)
         (<[nextPtr q := val]> (store q)) (S (nextPtr q))
         (l1 ++ nextPtr q :: l2)
         (<[key val := nextPtr q]> (itemsInQueue q))
         (itemsBeingProcessed q) (wakeupCh q)).
Proof.
  intros Hinv.
  assert (Hold : forall p, p ∈ items q -> deref (alloc val q).2 p = deref q p).
  { intros p Hp. rewrite deref_alloc. rewrite decide_False; [done|].
    apply (inv_alloc q Hinv) in Hp. lia. }
  unfold link.
  change (alloc val q) with (nextPtr q, (alloc val q).2).
  cbv iota beta.
  change (items (alloc val q).2) with (items q).
  destruct (firstBefore (alloc val q).2 (plannedToStartWorkAt val)
              (reverse (items q))) as [m|] eqn:Hscan.
  - apply scan_back_Some in Hscan as (l1 & l2 & Hl & Hm & Hall).
    assert (Hnd := inv_nodup q Hinv). rewrite Hl in Hnd.
    assert (Hm1 : m ∉ l1).
    { rewrite NoDup_app, NoDup_cons in Hnd. destruct Hnd as (_ & Hdisj & _).
      intros Hin. apply (Hdisj _ Hin). by left. }
    exists (l1 ++ [m]), l2. split_and!.
    + by rewrite <- app_assoc.
    + assert (Hso := inv_sorted q Hinv). rewrite Hl in Hso.
      rewrite StronglySorted_app in Hso. destruct Hso as (Hcross & _ & _).
      rewrite Hold in Hm by (rewrite Hl; set_solver).
      apply Forall_app. split; [|by repeat constructor].
      apply Forall_forall. intros x Hx.
      specialize (Hcross x m Hx ltac:(by left)). unfold le_planned in Hcross. lia.
    + apply Forall_forall. intros x Hx.
      rewrite <- Hold by (rewrite Hl; set_solver).
      by eapply Forall_forall in Hall.
    + rewrite Hl, InsertAfter_middle by done. by rewrite <- app_assoc.
  - apply scan_back_None in Hscan.
    exists [], (items q). split_and!; [done|by constructor| |done].
    apply Forall_forall. intros x Hx. rewrite <- Hold by done.
    by eapply Forall_forall in Hscan.
Qed.

Lemma link_inv q val :
  queue_inv q ->
  itemsInQueue q !! key val = None ->
  itemsBeingProcessed q !! key val = None ->
  queue_inv (link val q).2.
Proof.
  intros Hinv Hnq Hnb.
  destruct (link_spec q val Hinv) as (l1 & l2 & Hl & H1 & H2 & ->).
  set (n := nextPtr q).
  assert (Hfresh : forall p, p ∈ items q -> p ≠ n).
  { intros p Hp ->. apply (inv_alloc q Hinv) in Hp. unfold n in Hp. lia. }
  match goal with |- queue_inv (_, ?q0).2 => set (q' := q0) end.
  assert (Hd : forall p, deref q' p = if decide (n = p) then val else deref q p).
  { intros p. unfold deref, q'. simpl. by rewrite lookup_total_insert. }
  assert (Hin : forall p, p ∈ l1 ++ n :: l2 <-> p = n \/ p ∈ items q).
  { intros p. rewrite Hl, !elem_of_app, elem_of_cons. tauto. }
  simpl. split; simpl.
  - assert (Hnd := inv_nodup q Hinv). rewrite Hl in Hnd.
    rewrite NoDup_app in Hnd. destruct Hnd as (Hnd1 & Hdisj & Hnd2).
    rewrite NoDup_app, NoDup_cons. split_and!; [done| |..|done].
    + intros x Hx. rewrite elem_of_cons. intros [->|Hx2].
      * apply (Hfresh n); [|done]. rewrite Hl, elem_of_app. by left.
      * by apply (Hdisj x).
    + intros Hn. apply (Hfresh n); [|done]. rewrite Hl, elem_of_app. by right.
  - intros p Hp. apply Hin in Hp as [->|Hp]; [unfold n; lia|].
    apply (inv_alloc q Hinv) in Hp. lia.
  - intros k p. rewrite lookup_insert_Some, Hin, Hd. split.
    + intros [[<- <-]|[Hne Hq]].
      * split; [by left|]. by rewrite decide_True.
      * apply (inv_index q Hinv) in Hq as [Hp Hk].
        split; [by right|]. by rewrite decide_False by (by apply not_eq_sym, Hfresh).
    + intros [[->|Hp] Hk].
      * rewrite decide_True in Hk by done. by left.
      * rewrite decide_False in Hk by (by apply not_eq_sym, Hfresh).
        assert (Hq : itemsInQueue q !! k = Some p) by (by apply (inv_index q Hinv)).
        right. split; [|done]. intros Heq. rewrite <- Heq in Hq. congruence.
  - intros k p Hb. destruct (inv_inflight q Hinv k p Hb) as [Hlt Hk].
    split; [lia|]. rewrite Hd. rewrite decide_False; [done|]. unfold n. lia.
  - intros k Hq Hb. destruct (decide (key val = k)) as [<-|Hne].
    + rewrite Hnb in Hb. by destruct Hb.
    + rewrite lookup_insert_ne in Hq by done. by apply (inv_exclusive q Hinv k).
  - assert (Hle : forall x y, x ∈ items q -> y ∈ items q ->
                  le_planned q x y -> le_planned q' x y).
    { intros x y Hx Hy. unfold le_planned. rewrite !Hd.
      by rewrite !decide_False by (by apply not_eq_sym, Hfresh). }
    apply StronglySorted_insert_middle.
    + rewrite <- Hl. eapply StronglySorted_rel_on; [exact Hle|apply (inv_sorted q Hinv)].
    + apply Forall_forall. intros x Hx. unfold le_planned. rewrite !Hd.
      rewrite (decide_False (P := n = x))
        by (apply not_eq_sym, Hfresh; rewrite Hl, elem_of_app; by left).
      rewrite decide_True by done.
      eapply Forall_forall in H1; [|exact Hx]. simpl in H1. lia.
    + apply Forall_forall. intros x Hx. unfold le_planned. rewrite !Hd.
      rewrite (decide_False (P := n = x))
        by (apply not_eq_sym, Hfresh; rewrite Hl, elem_of_app; by right).
      rewrite decide_True by done.
      by eapply Forall_forall in H2.
Qed.

End link_facts.

(** ** Moving a pending item *)

Section adjust_facts.
Context {R : Type} `{!RateLimiter R}.
Implicit Types (q : Queue R) (k : string) (p e item : ptr) (t when : Time).

Lemma adjustPosition_later q e when :
  plannedToStartWorkAt (deref q e) < when -> adjustPosition e when q = q.
Proof.
  intros Hlt. unfold adjustPosition, After.
  destruct (Z.gtb_spec when (plannedToStartWorkAt (deref q e))); [done|lia].
Qed.

Lemma adjustPosition_spec q e when :
  queue_inv q -> e ∈ items q ->
  when <= plannedToStartWorkAt (deref q e) ->
  exists l1 l2 l3,
    items q = l1 ++ l2 ++ e :: l3 /\
    Forall (fun p => plannedToStartWorkAt (deref q p) < when) l1 /\
    Forall (fun p => when <= plannedToStartWorkAt (deref q p)) l2 /\
    adjustPosition e when q =
      set_items (l1 ++ e :: l2 ++ l3)
                (assign e (set_plannedToStartWorkAt when) q).
Proof.
  intros Hinv He Hle. unfold adjustPosition, After.
  destruct (Z.gtb_spec when (plannedToStartWorkAt (deref q e))); [lia|].
  set (q1 := assign e (set_plannedToStartWorkAt when) q).
  change (items q1) with (items q).
  destruct (NoDup_split _ _ (inv_nodup q Hinv) He) as (A & l3 & Hl & HeA & Hel3 & Hnd).
  assert (Hold : forall p, p ∈ A -> deref q1 p = deref q p).
  { intros p Hp. unfold q1. rewrite deref_assign. rewrite decide_False; [done|].
    intros ->. by apply HeA. }
  unfold Prevs. rewrite Hl, before_middle by done.
  destruct (firstBefore q1 when (reverse A)) as [m|] eqn:Hscan.
  - apply scan_back_Some in Hscan as (a & b & -> & Hm & Hall).
    exists (a ++ [m]), b, l3. split_and!.
    + by rewrite <- !app_assoc.
    + assert (Hso := inv_sorted q Hinv). rewrite Hl in Hso.
      rewrite <- app_assoc in Hso. simpl in Hso.
      rewrite StronglySorted_app in Hso. destruct Hso as (Hcross & _ & _).
      rewrite Hold in Hm by set_solver.
      apply Forall_app. split; [|by repeat constructor].
      apply Forall_forall. intros x Hx.
      specialize (Hcross x m Hx ltac:(by left)). unfold le_planned in Hcross. lia.
    + apply Forall_forall. intros x Hx. rewrite <- Hold by set_solver.
      by eapply Forall_forall in Hall.
    + assert (Hnd' := inv_nodup q Hinv). rewrite Hl in Hnd'.
      rewrite <- app_assoc in Hnd' |- *. simpl in Hnd' |- *.
      rewrite MoveAfter_middle by done. by rewrite <- app_assoc.
  - apply scan_back_None in Hscan.
    exists [], A, l3. split_and!; [done|by constructor| |].
    + apply Forall_forall. intros x Hx. rewrite <- Hold by done.
      by eapply Forall_forall in Hscan.
    + by rewrite MoveToFront_middle.
Qed.

Lemma adjustPosition_inv q e when :
  queue_inv q -> e ∈ items q -> queue_inv (adjustPosition e when q).
Proof.
  intros Hinv He.
  destruct (Z.lt_ge_cases (plannedToStartWorkAt (deref q e)) when) as [Hlt|Hge].
  { by rewrite adjustPosition_later. }
  apply Z.ge_le in Hge || idtac.
  destruct (adjustPosition_spec q e when Hinv He ltac:(lia))
    as (l1 & l2 & l3 & Hl & H1 & H2 & ->).
  set (q1 := set_items (l1 ++ e :: l2 ++ l3)
                (assign e (set_plannedToStartWorkAt when) q)).
  assert (Hd : forall p, deref q1 p =
            if decide (e = p) then set_plannedToStartWorkAt when (deref q e)
            else deref q p).
  { intros p. unfold q1. by rewrite <- deref_assign. }
  assert (Hk : forall p, key (deref q1 p) = key (deref q p)).
  { intros p. rewrite Hd. by case_decide; subst. }
  assert (Hperm : l1 ++ e :: l2 ++ l3 ≡ₚ items q).
  { rewrite Hl. rewrite <- !Permutation_middle. by rewrite (app_assoc l1 l2 l3). }
  assert (Hnd : NoDup (l1 ++ e :: l2 ++ l3)).
  { rewrite Hperm. apply (inv_nodup q Hinv). }
  assert (Hi1 : items q1 = l1 ++ e :: l2 ++ l3) by done.
  assert (Hn1 : nextPtr q1 = nextPtr q) by done.
  assert (Hq1 : itemsInQueue q1 = itemsInQueue q) by done.
  assert (Hb1 : itemsBeingProcessed q1 = itemsBeingProcessed q) by done.
  split; rewrite ?Hi1, ?Hn1, ?Hq1, ?Hb1.
  - done.
  - intros p Hp. rewrite Hperm in Hp. by apply (inv_alloc q Hinv).
  - intros k p. rewrite Hk, Hperm. apply (inv_index q Hinv).
  - intros k p. rewrite Hk. apply (inv_inflight q Hinv).
  - apply (inv_exclusive q Hinv).
  - assert (Hso := inv_sorted q Hinv). rewrite Hl in Hso.
    rewrite NoDup_app, NoDup_cons, NoDup_app in Hnd.
    destruct Hnd as (_ & Hd1 & Hd2 & _).
    assert (He1 : e ∉ l1) by (intros Hin; apply (Hd1 _ Hin); by left).
    assert (He23 : e ∉ l2 ++ l3) by done.
    apply StronglySorted_insert_middle.
    + rewrite app_assoc in Hso |- *. apply StronglySorted_drop_middle in Hso.
      eapply StronglySorted_rel_on; [|exact Hso].
      intros x y Hx Hy. unfold le_planned. rewrite !Hd.
      rewrite <- app_assoc in Hx, Hy.
      rewrite !decide_False; [done| |]; intros ->.
      * apply elem_of_app in Hy as [Hy|Hy]; [by apply He1|by apply He23].
      * apply elem_of_app in Hx as [Hx|Hx]; [by apply He1|by apply He23].
    + apply Forall_forall. intros x Hx. unfold le_planned. rewrite !Hd.
      rewrite (decide_False (P := e = x)) by (intros ->; done).
      rewrite decide_True by done. simpl.
      eapply Forall_forall in H1; [|exact Hx]. simpl in H1. lia.
    + apply Forall_forall. intros x Hx. unfold le_planned. rewrite !Hd.
      rewrite (decide_False (P := e = x)) by (intros ->; done).
      rewrite decide_True by done. simpl.
      apply elem_of_app in Hx as [Hx|Hx].
      * by eapply Forall_forall in H2.
      * rewrite app_assoc in Hso. rewrite StronglySorted_app in Hso.
        destruct Hso as (_ & _ & Hso). apply StronglySorted_cons in Hso as [Hall _].
        eapply Forall_forall in Hall; [|exact Hx]. unfold le_planned in Hall. lia.
Qed.

End adjust_facts.

(** ** The invariant is preserved *)

Section preservation.
Context {R : Type} `{!RateLimiter R}.
Implicit Types (q : Queue R) (k : string) (p e item qi : ptr) (t when : Time).

Lemma insert_inv now k ratelimit delay q p q' :
  queue_inv q -> insert now k ratelimit delay q = Ok (p, q') -> queue_inv q'.
Proof.
  intros Hinv. unfold insert.
  destruct (itemsBeingProcessed q !! k) as [item|] eqn:Hb.
  { intros [= <- <-]. apply queue_inv_send_wakeup, queue_inv_assign; [done|done|].
    destruct (IsZero _); [by apply queue_inv_assign|].
    destruct (Before _ _); [by apply queue_inv_assign|done]. }
  destruct (itemsInQueue q !! k) as [item|] eqn:Hq.
  { intros [= <- <-]. apply queue_inv_send_wakeup, adjustPosition_inv; [done|].
    by apply (inv_pending_elem q k). }
  destruct ratelimit.
  - destruct (delay >? 0); [done|].
    pose proof (queue_inv_ratelimiter_When q k Hinv) as Hinv1.
    unfold ratelimiter_When in *.
    destruct (rl_When k (ratelimiter q)) as [d r]. simpl in Hinv1.
    match goal with |- context [link ?v ?q0] =>
      pose proof (link_inv q0 v Hinv1 Hq Hb) as Hinv2;
      destruct (link v q0) as [p2 q2] end.
    intros [= <- <-]. by apply queue_inv_send_wakeup.
  - match goal with |- context [link ?v ?q0] =>
      pose proof (link_inv q0 v Hinv Hq Hb) as Hinv2;
      destruct (link v q0) as [p2 q2] end.
    intros [= <- <-]. by apply queue_inv_send_wakeup.
Qed.

Lemma Forget_inv k q : queue_inv q -> queue_inv (Forget k q).
Proof.
  intros Hinv. unfold Forget.
  destruct (itemsInQueue q !! k) as [item|] eqn:Hq.
  - destruct (inv_pending_elem q k item Hinv Hq) as [Hin Hk].
    destruct (NoDup_split _ _ (inv_nodup q Hinv) Hin)
      as (l1 & l2 & Hl & H1 & H2 & Hnd).
    set (q1 := set_items _ _).
    assert (Hi1 : items q1 = l1 ++ l2).
    { unfold q1. simpl. by rewrite Hl, Remove_middle. }
    assert (Hmem : forall p, p ∈ l1 ++ l2 <-> p ∈ items q /\ p ≠ item).
    { intros p. rewrite Hl, !elem_of_app, elem_of_cons. split.
      - intros [Hp|Hp]; (split; [tauto|intros ->; tauto]).
      - tauto. }
    assert (Hn1 : nextPtr q1 = nextPtr q) by done.
    assert (Hq1 : itemsInQueue q1 = delete k (itemsInQueue q)) by done.
    assert (Hb1 : itemsBeingProcessed q1 = itemsBeingProcessed q) by done.
    assert (Hd : forall p, deref q1 p = deref q p) by done.
    split; rewrite ?Hi1, ?Hn1, ?Hq1, ?Hb1.
    + done.
    + intros p Hp. apply Hmem in Hp as [Hp _]. by apply (inv_alloc q Hinv).
    + intros k' p. rewrite Hd, lookup_delete_Some, Hmem, (inv_index q Hinv). split.
      * intros (Hne & Hp & Hk'). split_and!; [done| |done]. intros ->. congruence.
      * intros ((Hp & Hne) & Hk'). split_and!; [|done|done].
        intros <-. apply Hne.
        assert (itemsInQueue q !! k = Some p) by (by apply (inv_index q Hinv)).
        congruence.
    + intros k' p. rewrite Hd. apply (inv_inflight q Hinv).
    + intros k' Hs. apply (inv_exclusive q Hinv).
      rewrite lookup_delete_is_Some in Hs. tauto.
    + assert (Hso := inv_sorted q Hinv). rewrite Hl in Hso.
      apply StronglySorted_drop_middle in Hso.
      eapply StronglySorted_rel_on; [|exact Hso]. done.
  - destruct (itemsBeingProcessed q !! k); [|done]. by apply queue_inv_assign.
Qed.

Lemma getNextItem_step_inv now q :
  queue_inv q -> queue_inv (getNextItem_step now q).2.
Proof.
  intros Hinv. unfold getNextItem_step.
  destruct (items q) as [|e l] eqn:Hl; simpl; [done|].
  destruct (_ <=? 0); [|done]. simpl.
  set (k := key (deref q e)).
  match goal with |- queue_inv ?q0 => set (q1 := q0) end.
  assert (He : e ∈ items q) by (rewrite Hl; by left).
  assert (Hnd := inv_nodup q Hinv). rewrite Hl in Hnd.
  apply NoDup_cons in Hnd as [Hne Hnd].
  assert (Hi1 : items q1 = l).
  { unfold q1. simpl. by rewrite decide_True. }
  assert (Hn1 : nextPtr q1 = nextPtr q) by done.
  assert (Hq1 : itemsInQueue q1 = delete k (itemsInQueue q)) by done.
  assert (Hb1 : itemsBeingProcessed q1 = <[k := e]> (itemsBeingProcessed q)) by done.
  assert (Hd : forall p, deref q1 p = deref q p) by done.
  assert (Hqe : itemsInQueue q !! k = Some e) by (by apply (inv_index q Hinv)).
  split; rewrite ?Hi1, ?Hn1, ?Hq1, ?Hb1.
  - done.
  - intros p Hp. apply (inv_alloc q Hinv). rewrite Hl. by right.
  - intros k' p. rewrite Hd, lookup_delete_Some, (inv_index q Hinv), Hl, elem_of_cons.
    split.
    + intros (Hne' & [->|Hp] & Hk'); [done|by split].
    + intros (Hp & Hk'). split_and!; [|by right|done].
      intros <-. apply Hne.
      assert (itemsInQueue q !! k = Some p).
      { apply (inv_index q Hinv). split; [|done]. rewrite Hl. by right. }
      congruence.
  - intros k' p. rewrite Hd, lookup_insert_Some. intros [[<- <-]|[_ Hb]].
    + split; [by apply (inv_alloc q Hinv)|done].
    + by apply (inv_inflight q Hinv).
  - intros k' Hs Hb. rewrite lookup_delete_is_Some in Hs. destruct Hs as [Hne' Hs].
    rewrite lookup_insert_ne in Hb by done. by apply (inv_exclusive q Hinv k').
  - assert (Hso := inv_sorted q Hinv). rewrite Hl in Hso.
    apply StronglySorted_cons in Hso as [_ Hso].
    eapply StronglySorted_rel_on; [|exact Hso]. done.
Qed.

(** Taking a key out of the set being processed. *)
Lemma queue_inv_done k q :
  queue_inv q ->
  queue_inv (set_itemsBeingProcessed (delete k (itemsBeingProcessed q)) q).
Proof.
  intros [Hnd Hal Hix Hfl Hex Hso]. split; simpl; try done.
  - intros k' p. rewrite lookup_delete_Some. intros [_ Hb]. by apply Hfl.
  - intros k' Hs Hb. rewrite lookup_delete_is_Some in Hb. apply (Hex k'); tauto.
Qed.

Lemma handleQueueItemObject_inv now err qi q res q' :
  queue_inv q ->
  handleQueueItemObject now err qi q = Ok (res, q') -> queue_inv q'.
Proof.
  intros Hinv. unfold handleQueueItemObject.
  set (q1 := set_itemsBeingProcessed _ q).
  assert (Hinv1 : queue_inv q1) by (by apply queue_inv_done).
  clearbody q1.
  destruct (forget (deref q1 qi)).
  { intros [= <- <-]. by apply queue_inv_ratelimiter_Forget. }
  assert (Hfin : forall err0,
    (let q2 := ratelimiter_Forget (key (deref q1 qi)) q1 in
     if negb (IsZero (redirtiedAt (deref q2 qi))) then
       bind (insert now (key (deref q2 qi)) (redirtiedWithRatelimit (deref q2 qi))
               (Until now (redirtiedAt (deref q2 qi))) q2)
            (fun '(newQI, q3) =>
               Ok (err0, assign newQI (set_addedViaRedirty true) q3))
     else Ok (err0, q2)) = Ok (res, q') -> queue_inv q').
  { intros err0. cbv zeta.
    pose proof (queue_inv_ratelimiter_Forget q1 (key (deref q1 qi)) Hinv1) as Hinv2.
    destruct (negb _); [|by intros [= <- <-]].
    destruct (insert _ _ _ _ _) as [[newQI q3]|] eqn:Hins; [|done]. simpl.
    intros [= <- <-]. apply queue_inv_assign; [done|done|].
    by eapply insert_inv. }
  destruct err as [e|]; [|apply Hfin].
  destruct (_ <? MaxRetries); [|apply Hfin].
  destruct (insert _ _ _ _ _) as [[newQI q2]|] eqn:Hins; [|done]. simpl.
  intros [= <- <-]. do 2 (apply queue_inv_assign; [done|done|]).
  by eapply insert_inv.
Qed.

End preservation.

(** ** From the invariant to the statements on keys and times *)

Section key_facts.
Context {R : Type} `{!RateLimiter R}.
Implicit Types (q : Queue R) (k : string) (p e item qi : ptr).

Lemma occurrences_nil k : occurrences k [] = 0%nat.
Proof. done. Qed.

Lemma occurrences_cons k k' l :
  occurrences k (k' :: l) =
  if decide (k' = k) then S (occurrences k l) else occurrences k l.
Proof.
  unfold occurrences. destruct (decide (k' = k)) as [Heq|Hne].
  - by rewrite filter_cons_True.
  - by rewrite filter_cons_False.
Qed.

Lemma occurrences_absent (f : ptr -> string) k (l : list ptr) :
  (forall p, p ∈ l -> f p ≠ k) -> occurrences k (f <$> l) = 0%nat.
Proof.
  induction l as [|x l IH]; intros Hno; [done|].
  rewrite fmap_cons, occurrences_cons.
  rewrite decide_False by (apply Hno; by left).
  apply IH. intros p Hp. apply Hno. by right.
Qed.

Lemma occurrences_present (f : ptr -> string) k (l : list ptr) :
  occurrences k (f <$> l) ≠ 0%nat -> exists p, p ∈ l /\ f p = k.
Proof.
  induction l as [|x l IH]; [done|].
  rewrite fmap_cons, occurrences_cons.
  destruct (decide (f x = k)) as [Heq|Hne].
  - intros _. exists x. split; [by left|done].
  - intros Hocc. destruct (IH Hocc) as (p & Hp & Hk).
    exists p. split; [by right|done].
Qed.

Lemma occurrences_once (f : ptr -> string) k (l : list ptr) p :
  (forall x y, x ∈ l -> y ∈ l -> f x = f y -> x = y) ->
  NoDup l -> p ∈ l -> f p = k -> occurrences k (f <$> l) = 1%nat.
Proof.
  intros Hinj Hnd Hp Hk.
  destruct (NoDup_split _ _ Hnd Hp) as (l1 & l2 & -> & H1 & H2 & _).
  assert (Hother : forall x, x ∈ l1 ++ l2 -> f x ≠ k).
  { intros x Hx Hfx. assert (x = p) as ->.
    { apply Hinj; [|done|congruence].
      rewrite elem_of_app, elem_of_cons. rewrite elem_of_app in Hx. tauto. }
    rewrite elem_of_app in Hx. tauto. }
  rewrite fmap_app, fmap_cons. unfold occurrences.
  rewrite filter_app, filter_cons_True, length_app by done. simpl.
  fold (occurrences k (f <$> l1)). fold (occurrences k (f <$> l2)).
  rewrite !occurrences_absent; [done| |].
  - intros x Hx. apply Hother. rewrite elem_of_app. by right.
  - intros x Hx. apply Hother. rewrite elem_of_app. by left.
Qed.

Lemma queue_inv_state_invariants q : queue_inv q -> state_invariants q.
Proof.
  intros Hinv. split_and!.
  - intros k. unfold pendingKeys. split.
    + intros [p Hq]. apply (inv_index q Hinv) in Hq as Hp. destruct Hp as [Hp Hk].
      apply (occurrences_once _ k _ p); [|apply (inv_nodup q Hinv)|done|done].
      intros x y Hx Hy Hxy.
      assert (itemsInQueue q !! key (deref q x) = Some x)
        by (by apply (inv_index q Hinv)).
      assert (itemsInQueue q !! key (deref q x) = Some y)
        by (by apply (inv_index q Hinv)).
      congruence.
    + intros Hocc.
      destruct (occurrences_present (fun p => key (deref q p)) k (items q))
        as (p & Hp & Hk); [by rewrite Hocc|].
      exists p. by apply (inv_index q Hinv).
  - intros k [Hq Hb]. by apply (inv_exclusive q Hinv k).
  - unfold sorted_by_planned, pendingTimes.
    apply Sorted.StronglySorted_Sorted.
    eapply StronglySorted_fmap; [|apply (inv_sorted q Hinv)]. done.
Qed.

End key_facts.

(** ** The concrete runs are runs of the queue *)

Lemma queue_inv_pending_a : queue_inv pending_a.
Proof.
  eapply (insert_inv (at_time 0) "a" false 0 (New tt));
    [apply queue_inv_New|vm_compute; reflexivity].
Qed.

Lemma queue_inv_pending_a_then_b : queue_inv pending_a_then_b.
Proof.
  eapply (insert_inv (at_time 0) "b" false 0 pending_a);
    [apply queue_inv_pending_a|vm_compute; reflexivity].
Qed.

Lemma queue_inv_delayed_b_then_a : queue_inv delayed_b_then_a.
Proof.
  eapply (insert_inv (at_time 0) "a" false 5 delayed_b);
    [|vm_compute; reflexivity].
  eapply (insert_inv (at_time 0) "b" false 5 (New tt));
    [apply queue_inv_New|vm_compute; reflexivity].
Qed.

Lemma queue_inv_redirtied_a : queue_inv redirtied_a.
Proof.
  eapply (insert_inv (at_time 5) "a" false 0 processing_a);
    [|vm_compute; reflexivity].
  apply getNextItem_step_inv, queue_inv_pending_a.
Qed.

Lemma queue_inv_processing_a_limited : queue_inv processing_a_limited.
Proof.
  apply getNextItem_step_inv.
  eapply (insert_inv (at_time 0) "a" true 0 (New ∅));
    [apply queue_inv_New|vm_compute; reflexivity].
Qed.

(** ** The three ways through [insert] *)

Section insert_facts.
Context {R : Type} `{!RateLimiter R}.
Implicit Types (q : Queue R) (k : string) (p e item qi : ptr).

Lemma insert_inflight now k ratelimit delay q item :
  itemsBeingProcessed q !! k = Some item ->
  insert now k ratelimit delay q =
    Ok (item,
        send_wakeup
          (assign item (set_forget false)
             (if IsZero (redirtiedAt (deref q item))
                 || Before (clockNow now + delay) (redirtiedAt (deref q item))
              then assign item (set_redirtied (clockNow now + delay) ratelimit) q
              else q))).
Proof.
  intros Hb. unfold insert. rewrite Hb. unfold Add.
  by destruct (IsZero _), (Before _ _).
Qed.

Lemma insert_pending now k ratelimit delay q item :
  itemsBeingProcessed q !! k = None ->
  itemsInQueue q !! k = Some item ->
  insert now k ratelimit delay q =
    Ok (item, send_wakeup (adjustPosition item (clockNow now + delay) q)).
Proof. intros Hb Hq. unfold insert. by rewrite Hb, Hq. Qed.

Lemma insert_new_unlimited now k delay q :
  itemsBeingProcessed q !! k = None ->
  itemsInQueue q !! k = None ->
  let val :=
    mkItem k (clockNow now + delay) 0 false false 0 (clockNow now) false None in
  insert now k false delay q = Ok ((link val q).1, send_wakeup (link val q).2).
Proof.
  intros Hb Hq. unfold insert. rewrite Hb, Hq. simpl. unfold Add.
  unfold set_plannedToStartWorkAt. simpl. by destruct (link _ q).
Qed.

Lemma insert_new_limited now k delay q :
  itemsBeingProcessed q !! k = None ->
  itemsInQueue q !! k = None ->
  delay <= 0 ->
  let d := (rl_When k (ratelimiter q)).1 in
  let q1 := (ratelimiter_When k q).2 in
  let val :=
    mkItem k (clockNow now + d) 0 false false 0 (clockNow now) false (Some d) in
  insert now k true delay q = Ok ((link val q1).1, send_wakeup (link val q1).2).
Proof.
  intros Hb Hq Hd. unfold insert. rewrite Hb, Hq. simpl.
  destruct (Z.gtb_spec delay 0) as [|_]; [lia|].
  unfold ratelimiter_When. destruct (rl_When k (ratelimiter q)) as [d r]. simpl.
  unfold Add, set_delayedViaRateLimit, set_plannedToStartWorkAt. simpl.
  by destruct (link _ _).
Qed.

Lemma insert_new_panics now k delay q :
  itemsBeingProcessed q !! k = None ->
  itemsInQueue q !! k = None ->
  0 < delay ->
  insert now k true delay q =
    Panic "Non-zero delay with rate limiting not supported".
Proof.
  intros Hb Hq Hd. unfold insert. rewrite Hb, Hq.
  by destruct (Z.gtb_spec delay 0) as [_|]; [|lia].
Qed.

Lemma insert_panics_iff now k ratelimit delay q :
  is_panic (insert now k ratelimit delay q) <->
  itemsBeingProcessed q !! k = None /\ itemsInQueue q !! k = None /\
  ratelimit = true /\ 0 < delay.
Proof.
  destruct (itemsBeingProcessed q !! k) as [item|] eqn:Hb.
  { rewrite (insert_inflight _ _ _ _ _ item) by done. simpl.
    split; [done|]. by intros [? _]. }
  destruct (itemsInQueue q !! k) as [item|] eqn:Hq.
  { rewrite (insert_pending _ _ _ _ _ item) by done. simpl.
    split; [done|]. by intros (_ & ? & _). }
  destruct ratelimit.
  - destruct (Z.lt_ge_cases 0 delay) as [Hpos|Hneg].
    + rewrite insert_new_panics by done. simpl. tauto.
    + rewrite insert_new_limited by (done || lia). simpl.
      split; [done|]. intros (_ & _ & _ & ?). lia.
  - rewrite insert_new_unlimited by done. simpl.
    split; [done|]. by intros (_ & _ & ? & _).
Qed.

(** An insert that does not panic returns. *)
Lemma insert_returns now k ratelimit delay q :
  ratelimit = false \/ delay <= 0 ->
  exists p q', insert now k ratelimit delay q = Ok (p, q').
Proof.
  intros Hok. destruct (insert now k ratelimit delay q) as [[p q']|msg] eqn:Hins.
  - by exists p, q'.
  - exfalso.
    assert (Hp : is_panic (insert now k ratelimit delay q)) by (by rewrite Hins).
    apply insert_panics_iff in Hp as (_ & _ & -> & Hd).
    destruct Hok; [done|lia].
Qed.

End insert_facts.

(** ** Where the queue panics *)

Section panics.
Context {R : Type} `{!RateLimiter R}.
Implicit Types (q : Queue R) (k : string).

(** C9.  [Run] panics exactly when it is called with [workers <= 0] or on
    a queue that is already running, [Len] exactly when the items list and
    the index differ in size, and [insert] exactly when it is about to
    create a new item rate-limited with a positive delay; the three public
    enqueue operations never panic. *)
Theorem panics_exactly_on_programmer_errors workers now k ratelimit delay q :
  (is_panic (Run_start workers q) <-> workers <= 0 \/ running q = true) /\
  (is_panic (Len q) <-> length (items q) ≠ size (itemsInQueue q)) /\
  (is_panic (insert now k ratelimit delay q) <->
     itemsBeingProcessed q !! k = None /\ itemsInQueue q !! k = None /\
     ratelimit = true /\ 0 < delay) /\
  ~ is_panic (Enqueue now k q) /\
  ~ is_panic (EnqueueWithoutRateLimit now k q) /\
  ~ is_panic (EnqueueWithoutRateLimitWithDelay now k delay q).
Proof.
  split_and!.
  - unfold Run_start. destruct (Z.leb_spec workers 0) as [Hle|Hgt]; simpl.
    + split; [by left|done].
    + destruct (running q); simpl.
      * split; [by right|done].
      * split; [done|]. intros [?|?]; [lia|done].
  - unfold Len. case_bool_decide as Hlen; simpl; tauto.
  - apply insert_panics_iff.
  - unfold Enqueue.
    destruct (insert_returns now k true 0 q) as (p & q' & ->); [right; lia|].
    simpl. tauto.
  - unfold EnqueueWithoutRateLimit.
    destruct (insert_returns now k false 0 q) as (p & q' & ->); [by left|].
    simpl. tauto.
  - unfold EnqueueWithoutRateLimitWithDelay.
    destruct (insert_returns now k false delay q) as (p & q' & ->); [by left|].
    simpl. tauto.
Qed.

End panics.

(** ** Enqueue and forget while a key is being processed *)

Section inflight.
Context {R : Type} `{!RateLimiter R}.
Implicit Types (q : Queue R) (k : string) (p e item qi : ptr).

(** C6.  An insert for a key that is being processed adds nothing to the
    pending items: it returns the item that is being processed, sets its
    [redirtiedAt] to [now + delay] and its [redirtiedWithRatelimit] to
    [ratelimit] when [redirtiedAt] is zero or later than [now + delay],
    and clears its forget flag. *)
Theorem insert_while_processing now k ratelimit delay q item :
  itemsBeingProcessed q !! k = Some item ->
  exists q',
    insert now k ratelimit delay q = Ok (item, q') /\
    items q' = items q /\
    itemsInQueue q' = itemsInQueue q /\
    itemsBeingProcessed q' = itemsBeingProcessed q /\
    (forall p, p ≠ item -> deref q' p = deref q p) /\
    deref q' item =
      set_forget false
        (if bool_decide (redirtiedAt (deref q item) = 0 \/
                         clockNow now + delay < redirtiedAt (deref q item))
         then set_redirtied (clockNow now + delay) ratelimit (deref q item)
         else deref q item).
Proof.
  intros Hb. rewrite (insert_inflight _ _ _ _ _ item) by done.
  set (c := IsZero _ || Before _ _).
  assert (Hc : bool_decide (redirtiedAt (deref q item) = 0 \/
                 clockNow now + delay < redirtiedAt (deref q item)) = c).
  { unfold c, IsZero, Before.
    destruct (Z.eqb_spec (redirtiedAt (deref q item)) 0) as [Hz|Hnz]; simpl.
    { apply bool_decide_eq_true_2. by left. }
    destruct (Z.ltb_spec (clockNow now + delay) (redirtiedAt (deref q item)))
      as [Hlt|Hge].
    - apply bool_decide_eq_true_2. by right.
    - apply bool_decide_eq_false_2. intros [?|?]; [done|lia]. }
  rewrite Hc. clearbody c.
  eexists. split; [reflexivity|].
  assert (Hd : forall q0 p, deref (send_wakeup q0) p = deref q0 p) by done.
  destruct c; (split_and!; [done|done|done| |]).
  - intros p Hne. by rewrite Hd, !deref_assign, !decide_False.
  - by rewrite Hd, !deref_assign, !decide_True.
  - intros p Hne. by rewrite Hd, !deref_assign, !decide_False.
  - by rewrite Hd, !deref_assign, !decide_True.
Qed.

(** C7.  Completing an item whose forget flag is set resets the rate
    limiter for the key, takes the key out of the set being processed and
    returns no error, whatever the handler returned and whatever
    [redirtiedAt] holds; nothing is inserted. *)
Theorem completion_of_forgotten_item now err qi q :
  forget (deref q qi) = true ->
  exists q',
    handleQueueItemObject now err qi q = Ok (None, q') /\
    itemsBeingProcessed q' =
      delete (key (deref q qi)) (itemsBeingProcessed q) /\
    items q' = items q /\
    itemsInQueue q' = itemsInQueue q /\
    store q' = store q /\
    nextPtr q' = nextPtr q /\
    ratelimiter q' = rl_Forget (key (deref q qi)) (ratelimiter q) /\
    ratelimiterCalls q' = ratelimiterCalls q ++ [CallForget (key (deref q qi))].
Proof.
  intros Hf. unfold handleQueueItemObject.
  change (deref (set_itemsBeingProcessed ?m q) qi) with (deref q qi).
  rewrite Hf. eexists. split; [reflexivity|]. by split_and!.
Qed.

(** C8.  [Forget] on a pending key takes its element out of the list and
    the key out of the index and leaves the rate limiter as it is; on a
    key that is being processed it only sets the forget flag of the item;
    on any other key it changes nothing. *)
Theorem Forget_cases k q :
  queue_inv q ->
  (forall item, itemsInQueue q !! k = Some item ->
     items (Forget k q) = Remove item (items q) /\
     itemsInQueue (Forget k q) = delete k (itemsInQueue q) /\
     (k ∉ pendingKeys (Forget k q)) /\
     ratelimiter (Forget k q) = ratelimiter q /\
     ratelimiterCalls (Forget k q) = ratelimiterCalls q /\
     store (Forget k q) = store q /\
     itemsBeingProcessed (Forget k q) = itemsBeingProcessed q) /\
  (forall qi, itemsBeingProcessed q !! k = Some qi ->
     Forget k q = assign qi (set_forget true) q /\
     deref (Forget k q) qi = set_forget true (deref q qi) /\
     (forall p, p ≠ qi -> deref (Forget k q) p = deref q p)) /\
  (itemsInQueue q !! k = None -> itemsBeingProcessed q !! k = None ->
     Forget k q = q).
Proof.
  intros Hinv. split_and!.
  - intros item Hq.
    pose proof (Forget_inv k q Hinv) as Hinv'.
    unfold Forget in *. rewrite Hq in *. split_and!; try done.
    unfold pendingKeys. intros Hin.
    apply list_elem_of_fmap in Hin as (p & Hk & Hp).
    assert (Hq' : itemsInQueue
              (set_items (Remove item (items q))
                 (set_itemsInQueue (delete k (itemsInQueue q)) q)) !! k = Some p).
    { by apply (inv_index _ Hinv'). }
    simpl in Hq'. by rewrite lookup_delete_eq in Hq'.
  - intros qi Hb. unfold Forget.
    rewrite (inv_inflight_not_pending q k qi Hinv Hb), Hb. split_and!; [done| |].
    + by rewrite deref_assign, decide_True.
    + intros p Hne. by rewrite deref_assign, decide_False.
  - intros Hq Hb. unfold Forget. by rewrite Hq, Hb.
Qed.

End inflight.

Lemma insert_while_processing_witness :
  itemsBeingProcessed processing_a !! "a" = Some 0%nat /\
  exists q',
    insert (at_time 5) "a" false 0 processing_a = Ok (0%nat, q') /\
    items q' = [] /\
    redirtiedAt (deref q' 0%nat) = 5 /\
    forget (deref q' 0%nat) = false.
Proof.
  assert (Hb : itemsBeingProcessed processing_a !! "a" = Some 0%nat)
    by (vm_compute; reflexivity).
  split; [exact Hb|].
  destruct (insert_while_processing (at_time 5) "a" false 0 processing_a 0%nat Hb)
    as (q' & Hins & Hi & _ & _ & _ & Hit).
  exists q'. split_and!; [exact Hins|by rewrite Hi|by rewrite Hit..].
Defined.

Lemma completion_of_forgotten_item_witness :
  forget (deref forgotten_a 0%nat) = true /\
  redirtiedAt (deref forgotten_a 0%nat) = 5 /\
  exists q',
    handleQueueItemObject (at_time 7) (Some (HandlerError "failed")) 0%nat
      forgotten_a = Ok (None, q') /\
    items q' = [] /\
    ratelimiterCalls q' = [CallForget "a"].
Proof.
  assert (Hf : forget (deref forgotten_a 0%nat) = true) by (vm_compute; reflexivity).
  split; [exact Hf|]. split; [vm_compute; reflexivity|].
  destruct (completion_of_forgotten_item (at_time 7)
              (Some (HandlerError "failed")) 0%nat forgotten_a Hf)
    as (q' & Hdone & _ & Hi & _ & _ & _ & _ & Hc).
  exists q'. split_and!; [exact Hdone|by rewrite Hi|by rewrite Hc].
Defined.

Lemma Forget_cases_witness :
  queue_inv pending_a_then_b /\
  pendingKeys pending_a_then_b = ["b"; "a"] /\
  pendingKeys (Forget "a" pending_a_then_b) = ["b"] /\
  Forget "c" pending_a_then_b = pending_a_then_b.
Proof.
  pose proof queue_inv_pending_a_then_b as Hinv.
  split; [exact Hinv|].
  destruct (Forget_cases "c" pending_a_then_b Hinv) as (_ & _ & Hnone).
  split_and!; [vm_compute; reflexivity..|].
  apply Hnone; vm_compute; reflexivity.
Defined.

(** ** The public operations keep the invariants *)

Section operations.
Context {R : Type} `{!RateLimiter R}.
Implicit Types (q : Queue R) (k : string) (p e item qi : ptr).

Lemma keeps_invariants_insert now k ratelimit delay q :
  queue_inv q -> ratelimit = false \/ delay <= 0 ->
  keeps_invariants
    (bind (insert now k ratelimit delay q) (fun r => Ok r.2)).
Proof.
  intros Hinv Hok.
  destruct (insert_returns now k ratelimit delay q Hok) as (p & q' & Hins).
  rewrite Hins. simpl.
  assert (queue_inv q') by (by eapply insert_inv).
  split; [done|]. by apply queue_inv_state_invariants.
Qed.

(** A panic of the completion step comes from its re-insert of a
    re-dirtied item. *)
Lemma handleQueueItemObject_panics now err qi q msg :
  handleQueueItemObject now err qi q = Panic msg ->
  forget (deref q qi) = false /\
  redirtiedWithRatelimit (deref q qi) = true /\
  0 < Until now (redirtiedAt (deref q qi)).
Proof.
  unfold handleQueueItemObject.
  set (q1 := set_itemsBeingProcessed _ q).
  assert (Hd : forall q0, deref (ratelimiter_Forget (key (deref q1 qi)) q0) qi
                          = deref q0 qi) by done.
  change (deref q1 qi) with (deref q qi) in *.
  destruct (forget (deref q qi)); [done|].
  assert (Hfin : forall (err0 : option error),
    (if negb (IsZero (redirtiedAt (deref q qi))) then
       bind (insert now (key (deref q qi)) (redirtiedWithRatelimit (deref q qi))
               (Until now (redirtiedAt (deref q qi)))
               (ratelimiter_Forget (key (deref q qi)) q1))
            (fun '(newQI, q3) =>
               Ok (err0, assign newQI (set_addedViaRedirty true) q3))
     else Ok (err0, ratelimiter_Forget (key (deref q qi)) q1)) = Panic msg ->
    false = false /\ redirtiedWithRatelimit (deref q qi) = true /\
    0 < Until now (redirtiedAt (deref q qi))).
  { intros err0. destruct (negb _); [|done].
    destruct (insert _ _ _ _ _) as [[newQI q3]|msg'] eqn:Hins; [done|].
    intros _.
    assert (Hp : is_panic (insert now (key (deref q qi))
                   (redirtiedWithRatelimit (deref q qi))
                   (Until now (redirtiedAt (deref q qi)))
                   (ratelimiter_Forget (key (deref q qi)) q1)))
      by (by rewrite Hins).
    apply insert_panics_iff in Hp. tauto. }
  destruct err as [e|]; [|apply Hfin].
  destruct (_ <? MaxRetries); [|apply Hfin].
  destruct (insert_returns now (key (deref q qi)) true 0 q1) as (p & q2 & ->);
    [right; lia|].
  done.
Qed.

(** C1, as the code has it.  Enqueue, EnqueueWithoutRateLimit,
    EnqueueWithoutRateLimitWithDelay, Forget, the pickup of getNextItem and
    the completion step each return a state in which every key is in the
    index iff it occurs exactly once among the pending items, no key is
    both pending and being processed and the pending items are ordered
    non-decreasingly by [plannedToStartWorkAt]; the order among items with
    equal planned times is not part of what is kept.  The completion step
    is the one operation that may panic instead, on a re-dirtied item that
    asks for rate limiting with a positive delay. *)
Theorem operations_keep_invariants now k after err qi q :
  queue_inv q ->
  keeps_invariants (Enqueue now k q) /\
  keeps_invariants (EnqueueWithoutRateLimit now k q) /\
  keeps_invariants (EnqueueWithoutRateLimitWithDelay now k after q) /\
  keeps_invariants (Ok (Forget k q)) /\
  keeps_invariants (Ok (getNextItem_step now q).2) /\
  match handleQueueItemObject now err qi q with
  | Ok (_, q') => queue_inv q' /\ state_invariants q'
  | Panic _ =>
      redirtiedWithRatelimit (deref q qi) = true /\
      0 < Until now (redirtiedAt (deref q qi))
  end.
Proof.
  intros Hinv. split_and!.
  - apply keeps_invariants_insert; [done|right; lia].
  - apply keeps_invariants_insert; [done|by left].
  - apply keeps_invariants_insert; [done|by left].
  - pose proof (Forget_inv k q Hinv). split; [done|].
    by apply queue_inv_state_invariants.
  - pose proof (getNextItem_step_inv now q Hinv). split; [done|].
    by apply queue_inv_state_invariants.
  - destruct (handleQueueItemObject now err qi q) as [[res q']|msg] eqn:Hdone.
    + assert (queue_inv q') by (by eapply handleQueueItemObject_inv).
      split; [done|]. by apply queue_inv_state_invariants.
    + apply handleQueueItemObject_panics in Hdone. tauto.
Qed.

End operations.

Lemma operations_keep_invariants_witness :
  queue_inv (New tt) /\
  keeps_invariants (Enqueue (at_time 0) "a" (New tt)) /\
  keeps_invariants (Ok (Forget "a" (New tt))).
Proof.
  split; [apply queue_inv_New|].
  destruct (operations_keep_invariants (at_time 0) "a" 0 None 0%nat (New tt)
              (queue_inv_New tt)) as (He & _ & _ & Hf & _).
  split; [exact He|exact Hf].
Defined.

(** C1, the order among ties.  Two keys enqueued at the same instant end
    up in the list in the reverse of their insertion order: the scan from
    the back stops only at an item planned strictly earlier, so a new
    item goes in front of the items planned for the same time. *)
Lemma ties_not_kept_in_insertion_order :
  EnqueueWithoutRateLimit (at_time 0) "a" (New tt) = Ok pending_a /\
  EnqueueWithoutRateLimit (at_time 0) "b" pending_a = Ok pending_a_then_b /\
  state_invariants pending_a /\ ties_in_insertion_order pending_a /\
  pendingKeys pending_a_then_b = ["b"; "a"] /\
  pendingTimes pending_a_then_b = [0; 0] /\
  ~ ties_in_insertion_order pending_a_then_b.
Proof.
  split_and!; [vm_compute; reflexivity|vm_compute; reflexivity| | |
               vm_compute; reflexivity|vm_compute; reflexivity|].
  - apply queue_inv_state_invariants, queue_inv_pending_a.
  - intros i j p1 p2 Hij H1 H2 _.
    assert (Hi : items pending_a = [0%nat]) by (vm_compute; reflexivity).
    rewrite Hi in H1, H2.
    destruct i, j; try lia; simpl in *; done.
  - intros Hties.
    specialize (Hties 0%nat 1%nat 1%nat 0%nat).
    assert (1 < 0)%nat; [|lia].
    apply Hties; [lia|vm_compute; reflexivity..].
Qed.

(** ** Re-inserting a pending key *)

Section reinsert.
Context {R : Type} `{!RateLimiter R}.
Implicit Types (q : Queue R) (k : string) (p e item qi : ptr).

(** C4, as the code has it.  Re-inserting a pending key with a time
    [when = now + delay] strictly later than its planned time changes
    neither the item nor the list.  With [when] earlier than or equal to
    the planned time, the planned time becomes [when] and the item moves
    in front of every predecessor that is not planned strictly before
    [when]; no other item changes and the list stays sorted. *)
Theorem reinsert_of_pending_key now k ratelimit delay q item :
  queue_inv q ->
  itemsInQueue q !! k = Some item ->
  exists q',
    insert now k ratelimit delay q = Ok (item, q') /\
    sorted_by_planned q' /\
    (forall p, p ≠ item -> deref q' p = deref q p) /\
    (plannedToStartWorkAt (deref q item) < clockNow now + delay ->
       items q' = items q /\ deref q' item = deref q item) /\
    (clockNow now + delay <= plannedToStartWorkAt (deref q item) ->
       plannedToStartWorkAt (deref q' item) = clockNow now + delay /\
       exists l1 l2 l3,
         items q = l1 ++ l2 ++ item :: l3 /\
         items q' = l1 ++ item :: l2 ++ l3 /\
         Forall (fun p => plannedToStartWorkAt (deref q p) < clockNow now + delay) l1 /\
         Forall (fun p => clockNow now + delay <= plannedToStartWorkAt (deref q p)) l2).
Proof.
  intros Hinv Hq.
  assert (Hb : itemsBeingProcessed q !! k = None).
  { destruct (itemsBeingProcessed q !! k) as [qi|] eqn:Hb; [|done].
    exfalso. apply (inv_exclusive q Hinv k); by eexists. }
  destruct (inv_pending_elem q k item Hinv Hq) as [Hin Hk].
  rewrite (insert_pending _ _ _ _ _ item) by done.
  set (when := clockNow now + delay).
  eexists. split; [reflexivity|].
  assert (Hd : forall q0 p, deref (send_wakeup q0) p = deref q0 p) by done.
  assert (Hinv' : queue_inv (send_wakeup (adjustPosition item when q))).
  { by apply queue_inv_send_wakeup, adjustPosition_inv. }
  split; [by apply queue_inv_state_invariants|].
  destruct (Z.lt_ge_cases (plannedToStartWorkAt (deref q item)) when) as [Hlt|Hge].
  - rewrite adjustPosition_later by done. split_and!; [done|done|lia].
  - destruct (adjustPosition_spec q item when Hinv Hin Hge)
      as (l1 & l2 & l3 & Hl & H1 & H2 & ->).
    assert (Hd' : forall l q0 p, deref (set_items l q0) p = deref q0 p) by done.
    split_and!.
    + intros p Hne. by rewrite Hd, Hd', deref_assign, decide_False.
    + lia.
    + intros _. split.
      * by rewrite Hd, Hd', deref_assign, decide_True.
      * by exists l1, l2, l3.
Qed.

End reinsert.

Lemma reinsert_of_pending_key_witness :
  queue_inv delayed_b_then_a /\
  itemsInQueue delayed_b_then_a !! "a" = Some 1%nat /\
  exists q',
    insert (at_time 0) "a" false 3 delayed_b_then_a = Ok (1%nat, q') /\
    sorted_by_planned q'.
Proof.
  assert (Hq : itemsInQueue delayed_b_then_a !! "a" = Some 1%nat)
    by (vm_compute; reflexivity).
  split; [apply queue_inv_delayed_b_then_a|]. split; [exact Hq|].
  destruct (reinsert_of_pending_key (at_time 0) "a" false 3 delayed_b_then_a
              1%nat queue_inv_delayed_b_then_a Hq) as (q' & Hins & Hs & _).
  by exists q'.
Defined.

(** C4 at equal times.  "b" is pending behind "a", both planned for time
    5.  Re-inserting "b" with [when = 5], which is not earlier than its
    planned time, moves it to the front of the list. *)
Lemma reinsert_at_planned_time_moves_item :
  pendingKeys delayed_b_then_a = ["a"; "b"] /\
  pendingTimes delayed_b_then_a = [5; 5] /\
  itemsInQueue delayed_b_then_a !! "b" = Some 0%nat /\
  clockNow (at_time 0) + 5 >= plannedToStartWorkAt (deref delayed_b_then_a 0%nat) /\
  exists q',
    insert (at_time 0) "b" false 5 delayed_b_then_a = Ok (0%nat, q') /\
    pendingKeys q' = ["b"; "a"] /\
    items q' ≠ items delayed_b_then_a.
Proof.
  split_and!; [vm_compute; reflexivity|vm_compute; reflexivity|
               vm_compute; reflexivity|vm_compute; discriminate|].
  eexists. split_and!; [vm_compute; reflexivity|vm_compute; reflexivity|].
  vm_compute. discriminate.
Qed.

(** ** Completion: requeue after a failure, re-insert after a re-dirty *)

Section completion.
Context {R : Type} `{!RateLimiter R}.
Implicit Types (q : Queue R) (k : string) (p e item qi : ptr).

(** The state after the insert of a key that is neither pending nor being
    processed. *)
Lemma insert_new_spec now k ratelimit delay q :
  queue_inv q ->
  itemsBeingProcessed q !! k = None ->
  itemsInQueue q !! k = None ->
  ratelimit = false \/ delay <= 0 ->
  let d := if ratelimit then (rl_When k (ratelimiter q)).1 else delay in
  let val :=
    mkItem k (clockNow now + d) 0 false false 0 (clockNow now) false
           (if ratelimit then Some d else None) in
  exists l1 l2,
    items q = l1 ++ l2 /\
    Forall (fun p => plannedToStartWorkAt (deref q p) < clockNow now + d) l1 /\
    Forall (fun p => clockNow now + d <= plannedToStartWorkAt (deref q p)) l2 /\
    insert now k ratelimit delay q =
      Ok (nextPtr q,
          mkQueue (running q)
            (if ratelimit then (rl_When k (ratelimiter q)).2 else ratelimiter q)
            (if ratelimit then ratelimiterCalls q ++ [CallWhen k]
             else ratelimiterCalls q)
            (<[nextPtr q := val]> (store q)) (S (nextPtr q))
            (l1 ++ nextPtr q :: l2)
            (<[k := nextPtr q]> (itemsInQueue q))
            (itemsBeingProcessed q) true).
Proof.
  intros Hinv Hb Hq Hok. destruct ratelimit; cbv zeta.
  - assert (Hd : delay <= 0) by (destruct Hok; [done|lia]).
    rewrite insert_new_limited by done. cbv zeta.
    pose proof (queue_inv_ratelimiter_When q k Hinv) as Hinv1.
    unfold ratelimiter_When in *.
    destruct (rl_When k (ratelimiter q)) as [d r]. simpl in Hinv1 |- *.
    match goal with |- context [link ?v ?q0] =>
      destruct (link_spec q0 v Hinv1) as (l1 & l2 & Hl & H1 & H2 & ->) end.
    exists l1, l2. by split_and!.
  - rewrite insert_new_unlimited by done. cbv zeta.
    match goal with |- context [link ?v ?q0] =>
      destruct (link_spec q0 v Hinv) as (l1 & l2 & Hl & H1 & H2 & ->) end.
    exists l1, l2. by split_and!.
Qed.

(** The first half of C5: the requeue after a failed handler call. *)
Lemma completion_requeues now cause qi q :
  queue_inv q ->
  itemsBeingProcessed q !! key (deref q qi) = Some qi ->
  forget (deref q qi) = false ->
  is_int (requeues (deref q qi)) ->
  requeues (deref q qi) + 1 < MaxRetries ->
  let k := key (deref q qi) in
  let d := (rl_When k (ratelimiter q)).1 in
  exists q' l1 l2,
    handleQueueItemObject now (Some cause) qi q = Ok (None, q') /\
    queue_inv q' /\
    items q = l1 ++ l2 /\
    items q' = l1 ++ nextPtr q :: l2 /\
    Forall (fun p => plannedToStartWorkAt (deref q p) < clockNow now + d) l1 /\
    Forall (fun p => clockNow now + d <= plannedToStartWorkAt (deref q p)) l2 /\
    itemsInQueue q' = <[k := nextPtr q]> (itemsInQueue q) /\
    itemsBeingProcessed q' = delete k (itemsBeingProcessed q) /\
    nextPtr q' = S (nextPtr q) /\
    deref q' (nextPtr q) =
      mkItem k (clockNow now + d) 0 false false
             (requeues (deref q qi) + 1) (originallyAdded (deref q qi)) false
             (Some d) /\
    (forall p, p ≠ nextPtr q -> deref q' p = deref q p) /\
    ratelimiter q' = (rl_When k (ratelimiter q)).2 /\
    ratelimiterCalls q' = ratelimiterCalls q ++ [CallWhen k].
Proof.
  intros Hinv Hb Hf Hint Hlt k d.
  pose proof (handleQueueItemObject_inv now (Some cause) qi q) as Hpres.
  unfold handleQueueItemObject in *.
  set (q1 := set_itemsBeingProcessed _ q) in *.
  change (deref q1 qi) with (deref q qi) in *. fold k in Hpres |- *.
  rewrite Hf in *.
  assert (Hadd : int_add (requeues (deref q qi)) 1 = requeues (deref q qi) + 1).
  { unfold int_add, int_wrap, is_int, int_min, int_max, MaxRetries in *.
    rewrite Z.mod_small; lia. }
  rewrite Hadd in *.
  destruct (Z.ltb_spec (requeues (deref q qi) + 1) MaxRetries) as [_|]; [|lia].
  assert (Hinv1 : queue_inv q1) by (by apply queue_inv_done).
  assert (Hb1 : itemsBeingProcessed q1 !! k = None) by apply lookup_delete_eq.
  assert (Hq1 : itemsInQueue q1 !! k = None).
  { by apply (inv_inflight_not_pending q k qi). }
  destruct (insert_new_spec now k true 0 q1 Hinv1 Hb1 Hq1 ltac:(right; lia))
    as (l1 & l2 & Hl & H1 & H2 & Hins).
  assert (Hne : nextPtr q ≠ qi).
  { apply (inv_inflight q Hinv) in Hb. lia. }
  match type of Hins with _ = Ok (_, ?Q) => set (q2 := Q) in * end.
  assert (Hd2 : forall p, deref q2 p =
            if decide (nextPtr q = p)
            then mkItem k (clockNow now + d) 0 false false 0 (clockNow now)
                   false (Some d)
            else deref q p).
  { intros p. unfold deref, q2. simpl. by rewrite lookup_total_insert. }
  assert (Hi2 : items q2 = l1 ++ nextPtr q :: l2) by done.
  assert (Hq2 : itemsInQueue q2 = <[k := nextPtr q]> (itemsInQueue q)) by done.
  assert (Hb2 : itemsBeingProcessed q2 = delete k (itemsBeingProcessed q)) by done.
  assert (Hn2 : nextPtr q2 = S (nextPtr q)) by done.
  assert (Hr2 : ratelimiter q2 = (rl_When k (ratelimiter q)).2) by done.
  assert (Hc2 : ratelimiterCalls q2 = ratelimiterCalls q ++ [CallWhen k]) by done.
  change (nextPtr q1) with (nextPtr q) in *.
  clearbody q2. rewrite Hins in *. cbn [bind] in *.
  match goal with |- context [Ok (None, ?q0)] => set (q' := q0) in * end.
  assert (Hd : forall p, deref q' p =
            if decide (nextPtr q = p)
            then mkItem k (clockNow now + d) 0 false false
                   (requeues (deref q qi) + 1) (originallyAdded (deref q qi))
                   false (Some d)
            else deref q p).
  { intros p. unfold q'. rewrite !deref_assign, !Hd2.
    rewrite !(decide_False (P := nextPtr q = qi)) by done.
    rewrite !(decide_True (P := nextPtr q = nextPtr q)) by done.
    rewrite Hadd. by destruct (decide (nextPtr q = p)). }
  exists q', l1, l2. split_and!; try done.
  - by eapply Hpres.
  - by rewrite Hd, decide_True.
  - intros p Hp. by rewrite Hd, decide_False.
Qed.

End completion.

(** ** A handler that always fails *)

Section retries.
Context {R : Type} `{!RateLimiter R}.
Implicit Types (q : Queue R) (k : string) (p e item qi : ptr).

Lemma Enqueue_New (r : R) now k :
  exists q, Enqueue now k (New r) = Ok q /\ lone_pending k 0 q.
Proof.
  unfold Enqueue.
  destruct (insert_new_spec now k true 0 (New r) (queue_inv_New r))
    as (l1 & l2 & Hl & _ & _ & Hins); [done|done|right; lia|].
  pose proof (insert_inv now k true 0 (New r) _ _ (queue_inv_New r) Hins) as Hinv.
  rewrite Hins. simpl in *.
  symmetry in Hl. apply app_eq_nil in Hl as [-> ->].
  eexists. split; [reflexivity|]. exists 0%nat. simpl.
  by split_and!.
Qed.

(** The worker picks the lone pending item up, after a timer wait when it
    is not due yet. *)
Lemma getNextItem_lone k j t q :
  lone_pending k j q ->
  exists p t1 q1,
    getNextItem 2 t q = Got p t1 q1 /\
    queue_inv q1 /\
    items q1 = [] /\ itemsInQueue q1 = ∅ /\
    itemsBeingProcessed q1 = {[k := p]} /\
    (forall p', deref q1 p' = deref q p') /\
    ratelimiter q1 = ratelimiter q /\
    ratelimiterCalls q1 = ratelimiterCalls q /\
    key (deref q p) = k /\ requeues (deref q p) = j /\
    forget (deref q p) = false /\ redirtiedAt (deref q p) = 0.
Proof.
  intros (p & Hi & Hq & Hb & Hinv & Hj & Hf & Hr).
  assert (Hk : key (deref q p) = k).
  { assert (Hin : p ∈ items q) by (rewrite Hi; by left).
    assert (Hq' : itemsInQueue q !! key (deref q p) = Some p)
      by (by apply (inv_index q Hinv)).
    rewrite Hq in Hq'. apply lookup_singleton_Some in Hq'. by destruct Hq'. }
  assert (Hpick : forall t1,
    plannedToStartWorkAt (deref q p) - t1 <= 0 ->
    exists q1, getNextItem_step (mkInstant t1 t1) q = (Picked p, q1) /\
      queue_inv q1 /\ items q1 = [] /\ itemsInQueue q1 = ∅ /\
      itemsBeingProcessed q1 = {[k := p]} /\
      (forall p', deref q1 p' = deref q p') /\
      ratelimiter q1 = ratelimiter q /\
      ratelimiterCalls q1 = ratelimiterCalls q).
  { intros t1 Hdue.
    pose proof (getNextItem_step_inv (mkInstant t1 t1) q Hinv) as Hinv1.
    unfold getNextItem_step in *. rewrite Hi in *. simpl in *.
    unfold Until in *. simpl in *.
    destruct (Z.leb_spec (plannedToStartWorkAt (deref q p) - t1) 0); [|lia].
    eexists. split; [reflexivity|]. simpl in *.
    rewrite decide_True in * by done. rewrite Hk, Hq, Hb in *.
    split_and!; try done; apply delete_singleton_eq. }
  exists p. unfold getNextItem.
  destruct (Z.le_gt_cases (plannedToStartWorkAt (deref q p) - t) 0) as [Hdue|Hwait].
  - destruct (Hpick t Hdue) as (q1 & -> & ? & ? & ? & ? & ? & ? & ?).
    exists t, q1. by split_and!.
  - assert (Hstep : getNextItem_step (mkInstant t t) q =
                    (WaitTimer (plannedToStartWorkAt (deref q p) - t), q)).
    { unfold getNextItem_step. rewrite Hi. simpl. unfold Until. simpl.
      by destruct (Z.leb_spec (plannedToStartWorkAt (deref q p) - t) 0); [lia|]. }
    rewrite Hstep.
    destruct (Hpick (t + (plannedToStartWorkAt (deref q p) - t)) ltac:(lia))
      as (q1 & -> & ? & ? & ? & ? & ? & ? & ?).
    eexists _, q1. by split_and!.
Qed.

(** One failed attempt below the cap: the worker goes on with the key
    pending again, one requeue further. *)
Lemma worker_failed_attempt handler k j fuel t q invoked :
  (forall k', handler k' ≠ None) ->
  lone_pending k j q -> 0 <= j -> j + 1 < MaxRetries ->
  exists t1 q',
    worker (S fuel) handler t q invoked =
      worker fuel handler t1 q' (invoked ++ [k]) /\
    lone_pending k (j + 1) q'.
Proof.
  intros Hfail Hlone Hj0 Hj.
  destruct (getNextItem_lone k j t q Hlone)
    as (p & t1 & q1 & Hget & Hinv1 & Hi1 & Hq1 & Hb1 & Hd1 & _ & _ &
        Hk & Hreq & Hf & Hr).
  cbn [worker]. rewrite Hget. rewrite Hd1, Hk.
  destruct (handler k) as [cause|] eqn:Hh; [|by apply Hfail in Hh].
  destruct (completion_requeues (mkInstant t1 t1) cause p q1)
    as (q' & l1 & l2 & Hdone & Hinv' & Hl & Hi' & _ & _ & Hq' & Hb' & _ &
        Hnew & _); rewrite ?Hd1; try done.
  { rewrite Hk, Hb1. apply lookup_singleton_eq. }
  { rewrite Hreq. unfold is_int, int_min, int_max, MaxRetries in *. lia. }
  { by rewrite Hreq. }
  rewrite Hdone. simpl. exists t1, q'. split; [done|].
  rewrite Hi1 in Hl. symmetry in Hl. apply app_eq_nil in Hl as [-> ->].
  exists (nextPtr q1). rewrite Hnew. simpl. rewrite Hd1 in *.
  split_and!; try done.
  - by rewrite Hq', Hk, Hq1, insert_empty.
  - by rewrite Hb', Hk, Hb1, delete_singleton_eq.
  - by rewrite Hreq.
Qed.

(** The attempt that reaches the cap: the key is dropped, and the worker
    waits on the empty list. *)
Lemma worker_last_attempt handler k fuel t q invoked :
  (forall k', handler k' ≠ None) ->
  lone_pending k (MaxRetries - 1) q ->
  exists q',
    worker (S (S fuel)) handler t q invoked = Ok (Waiting q', invoked ++ [k]) /\
    idle q'.
Proof.
  intros Hfail Hlone.
  destruct (getNextItem_lone k _ t q Hlone)
    as (p & t1 & q1 & Hget & Hinv1 & Hi1 & Hq1 & Hb1 & Hd1 & _ & _ &
        Hk & Hreq & Hf & Hr).
  cbn [worker]. rewrite Hget. rewrite Hd1, Hk.
  destruct (handler k) as [cause|] eqn:Hh; [|by apply Hfail in Hh].
  unfold handleQueueItemObject.
  change (deref (set_itemsBeingProcessed ?m q1) p) with (deref q1 p).
  change (deref (ratelimiter_Forget ?k0 ?q0) p) with (deref q0 p).
  change (deref (set_itemsBeingProcessed ?m q1) p) with (deref q1 p).
  rewrite !Hd1, Hf, Hreq, Hr, Hk. simpl.
  unfold getNextItem_step. simpl. rewrite Hi1. simpl.
  eexists. split; [reflexivity|].
  unfold idle. simpl. rewrite Hb1. split_and!; [done|done|].
  apply delete_singleton_eq.
Qed.

(** The second half of C5: one enqueue, a handler that always fails. *)
Lemma worker_always_failing handler k (m : nat) :
  (forall k', handler k' ≠ None) ->
  forall fuel t q invoked,
    (m + 2 <= fuel)%nat ->
    lone_pending k (MaxRetries - 1 - Z.of_nat m) q ->
    0 <= MaxRetries - 1 - Z.of_nat m ->
    exists q',
      worker fuel handler t q invoked =
        Ok (Waiting q', invoked ++ replicate (S m) k) /\
      idle q'.
Proof.
  intros Hfail. induction m as [|m IH]; intros fuel t q invoked Hfuel Hlone Hj.
  - destruct fuel as [|[|fuel]]; [lia|lia|].
    rewrite Z.sub_0_r in Hlone.
    by apply worker_last_attempt.
  - destruct fuel as [|fuel]; [lia|].
    destruct (worker_failed_attempt handler k _ fuel t q invoked Hfail Hlone)
      as (t1 & q1 & -> & Hlone1); [lia|lia|].
    destruct (IH fuel t1 q1 (invoked ++ [k])) as (q' & -> & Hidle); [lia| |lia|].
    { replace (MaxRetries - 1 - Z.of_nat m)
        with (MaxRetries - 1 - Z.of_nat (S m) + 1) by lia. done. }
    exists q'. split; [|done].
    by rewrite <- app_assoc.
Qed.

(** C5.  A failed handler call on an item that was not forgotten and has
    [requeues + 1 < MaxRetries] inserts the key anew, rate-limited and
    with no delay: the new item is planned at [now] plus what the rate
    limiter returns, carries [requeues + 1] and the first item's
    [originallyAdded], and no error is returned.  So after one enqueue a
    handler that always fails is invoked exactly [MaxRetries = 20] times,
    and then the worker waits on an empty queue. *)
Theorem failed_item_is_requeued_until_MaxRetries :
  (forall now cause qi q,
     queue_inv q ->
     itemsBeingProcessed q !! key (deref q qi) = Some qi ->
     forget (deref q qi) = false ->
     is_int (requeues (deref q qi)) ->
     requeues (deref q qi) + 1 < MaxRetries ->
     exists q',
       handleQueueItemObject now (Some cause) qi q = Ok (None, q') /\
       itemsInQueue q' !! key (deref q qi) = Some (nextPtr q) /\
       (nextPtr q ∈ items q') /\
       itemsBeingProcessed q' !! key (deref q qi) = None /\
       deref q' (nextPtr q) =
         mkItem (key (deref q qi))
           (clockNow now + (rl_When (key (deref q qi)) (ratelimiter q)).1)
           0 false false
           (requeues (deref q qi) + 1) (originallyAdded (deref q qi)) false
           (Some (rl_When (key (deref q qi)) (ratelimiter q)).1) /\
       ratelimiterCalls q' =
         ratelimiterCalls q ++ [CallWhen (key (deref q qi))]) /\
  (forall (r : R) handler t k fuel,
     (forall k', handler k' ≠ None) ->
     (21 <= fuel)%nat ->
     exists q0 q',
       Enqueue (at_time t) k (New r) = Ok q0 /\
       worker fuel handler t q0 [] = Ok (Waiting q', replicate 20 k) /\
       idle q').
Proof.
  split.
  - intros now cause qi q Hinv Hb Hf Hint Hlt.
    destruct (completion_requeues now cause qi q Hinv Hb Hf Hint Hlt)
      as (q' & l1 & l2 & Hdone & _ & _ & Hi' & _ & _ & Hq' & Hb' & _ &
          Hnew & _ & _ & Hc).
    exists q'. split_and!; try done.
    + rewrite Hq'. apply lookup_insert_eq.
    + rewrite Hi', elem_of_app, elem_of_cons. tauto.
    + rewrite Hb'. apply lookup_delete_eq.
  - intros r handler t k fuel Hfail Hfuel.
    destruct (Enqueue_New r (at_time t) k) as (q0 & Henq & Hlone).
    destruct (worker_always_failing handler k 19 Hfail fuel t q0 [])
      as (q' & Hrun & Hidle); [lia|done|unfold MaxRetries; lia|].
    by exists q0, q'.
Qed.

End retries.

Lemma failed_item_is_requeued_until_MaxRetries_witness :
  queue_inv processing_a_limited /\
  itemsBeingProcessed processing_a_limited
    !! key (deref processing_a_limited 0%nat) = Some 0%nat /\
  forget (deref processing_a_limited 0%nat) = false /\
  is_int (requeues (deref processing_a_limited 0%nat)) /\
  requeues (deref processing_a_limited 0%nat) + 1 < MaxRetries /\
  (exists q',
     handleQueueItemObject (at_time 5000000) (Some (HandlerError "failed"))
       0%nat processing_a_limited = Ok (None, q') /\
     requeues (deref q' 1%nat) = 1 /\
     plannedToStartWorkAt (deref q' 1%nat) = 15000000) /\
  (exists q0 q',
     Enqueue (at_time 0) "a" (New (∅ : gmap string nat)) = Ok q0 /\
     worker 21 (fun _ => Some (HandlerError "failed")) 0 q0 [] =
       Ok (Waiting q', replicate 20 "a") /\
     idle q').
Proof.
  destruct (@failed_item_is_requeued_until_MaxRetries _ backoffLimiter)
    as [Hstep Hrun].
  pose proof queue_inv_processing_a_limited as Hinv.
  assert (Hb : itemsBeingProcessed processing_a_limited
                 !! key (deref processing_a_limited 0%nat) = Some 0%nat)
    by (vm_compute; reflexivity).
  assert (Hf : forget (deref processing_a_limited 0%nat) = false)
    by (vm_compute; reflexivity).
  assert (Hint : is_int (requeues (deref processing_a_limited 0%nat)))
    by (vm_compute; split; discriminate).
  assert (Hlt : requeues (deref processing_a_limited 0%nat) + 1 < MaxRetries)
    by (vm_compute; reflexivity).
  split_and!; [exact Hinv|exact Hb|exact Hf|exact Hint|exact Hlt| |].
  - destruct (Hstep (at_time 5000000) (HandlerError "failed") 0%nat
                processing_a_limited Hinv Hb Hf Hint Hlt)
      as (q' & Hdone & _ & _ & _ & Hnew & _).
    exists q'. split; [exact Hdone|].
    change (nextPtr processing_a_limited) with 1%nat in Hnew.
    rewrite Hnew. split; vm_compute; reflexivity.
  - apply (Hrun ∅ (fun _ => Some (HandlerError "failed")) 0 "a" 21%nat);
      [discriminate|lia].
Defined.

(** ** Completion of a re-dirtied item *)

Section redirty.
Context {R : Type} `{!RateLimiter R}.
Implicit Types (q : Queue R) (k : string) (p e item qi : ptr).

(** C2, as the code has it.  When the handler succeeded or the retries
    are used up, the forget flag is clear and [redirtiedAt] is not zero,
    the completion step resets the rate limiter for the key once and
    inserts a new item for it, with the recorded [redirtiedWithRatelimit]
    and with the delay [redirtiedAt - now], which is not clamped at zero:
    without rate limiting the new item is planned at the clock's time plus
    that delay, also when the delay is negative.  The new item is marked
    [addedViaRedirty].  A recorded rate limit together with a positive
    delay is left out. *)
Theorem completion_reinserts_redirtied now err qi q :
  queue_inv q ->
  itemsBeingProcessed q !! key (deref q qi) = Some qi ->
  forget (deref q qi) = false ->
  redirtiedAt (deref q qi) ≠ 0 ->
  err = None \/ MaxRetries <= int_add (requeues (deref q qi)) 1 ->
  redirtiedWithRatelimit (deref q qi) = false \/
    Until now (redirtiedAt (deref q qi)) <= 0 ->
  let k := key (deref q qi) in
  let limited := redirtiedWithRatelimit (deref q qi) in
  let d := if limited then (rl_When k (rl_Forget k (ratelimiter q))).1
           else Until now (redirtiedAt (deref q qi)) in
  exists q' l1 l2,
    handleQueueItemObject now err qi q =
      Ok (match err with
          | Some cause =>
              Some (Wrapf cause "forgetting due to maximum retries reached")
          | None => None
          end, q') /\
    queue_inv q' /\
    items q = l1 ++ l2 /\
    items q' = l1 ++ nextPtr q :: l2 /\
    itemsInQueue q' = <[k := nextPtr q]> (itemsInQueue q) /\
    itemsBeingProcessed q' = delete k (itemsBeingProcessed q) /\
    deref q' (nextPtr q) =
      mkItem k (clockNow now + d) 0 false false 0 (clockNow now) true
             (if limited then Some d else None) /\
    ratelimiter q' =
      (if limited then (rl_When k (rl_Forget k (ratelimiter q))).2
       else rl_Forget k (ratelimiter q)) /\
    ratelimiterCalls q' =
      ratelimiterCalls q ++
        CallForget k :: (if limited then [CallWhen k] else []).
Proof.
  intros Hinv Hb Hf Hr Hdone Hlegal k limited d.
  pose proof (handleQueueItemObject_inv now err qi q) as Hpres.
  unfold handleQueueItemObject in *.
  set (q1 := set_itemsBeingProcessed _ q) in *.
  set (q2 := ratelimiter_Forget (key (deref q1 qi)) q1) in *.
  assert (Hd1 : forall p, deref q2 p = deref q p) by done.
  change (deref q1 qi) with (deref q qi) in *.
  rewrite !Hd1 in *. fold k limited in Hpres |- *. rewrite Hf in *.
  destruct (IsZero (redirtiedAt (deref q qi))) eqn:Hz.
  { unfold IsZero in Hz. apply Z.eqb_eq in Hz. done. }
  assert (Hinv2 : queue_inv q2).
  { by apply queue_inv_ratelimiter_Forget, queue_inv_done. }
  assert (Hb2 : itemsBeingProcessed q2 !! k = None) by apply lookup_delete_eq.
  assert (Hq2 : itemsInQueue q2 !! k = None).
  { by apply (inv_inflight_not_pending q k qi). }
  destruct (insert_new_spec now k limited
              (Until now (redirtiedAt (deref q qi))) q2 Hinv2 Hb2 Hq2 Hlegal)
    as (l1 & l2 & Hl & _ & _ & Hins).
  match type of Hins with _ = Ok (_, ?Q) => set (q3 := Q) in * end.
  assert (Hd3 : deref q3 (nextPtr q) =
            mkItem k (clockNow now + d) 0 false false 0 (clockNow now) false
                   (if limited then Some d else None)).
  { unfold deref, q3. simpl. rewrite lookup_total_insert_eq.
    unfold d. by destruct limited. }
  assert (Hi3 : items q3 = l1 ++ nextPtr q :: l2) by done.
  assert (Hq3 : itemsInQueue q3 = <[k := nextPtr q]> (itemsInQueue q)) by done.
  assert (Hb3 : itemsBeingProcessed q3 = delete k (itemsBeingProcessed q)) by done.
  assert (Hr3 : ratelimiter q3 =
            if limited then (rl_When k (rl_Forget k (ratelimiter q))).2
            else rl_Forget k (ratelimiter q)) by done.
  assert (Hc3 : ratelimiterCalls q3 =
            ratelimiterCalls q ++
              CallForget k :: (if limited then [CallWhen k] else [])).
  { unfold q3. simpl. destruct limited; [|done]. by rewrite <- app_assoc. }
  change (nextPtr q2) with (nextPtr q) in *.
  clearbody q3.
  exists (assign (nextPtr q) (set_addedViaRedirty true) q3), l1, l2.
  match goal with |- ?A /\ _ => assert (Hrun : A) end.
  { simpl negb. cbv iota. destruct err as [cause|].
    - destruct Hdone as [|Hmax]; [done|].
      destruct (Z.ltb_spec (int_add (requeues (deref q qi)) 1) MaxRetries);
        [lia|].
      by rewrite Hins.
    - by rewrite Hins. }
  split_and!; try done.
  - by eapply Hpres.
  - by rewrite deref_assign, decide_True, Hd3.
Qed.

End redirty.

Lemma completion_reinserts_redirtied_witness :
  queue_inv redirtied_a /\
  itemsBeingProcessed redirtied_a !! key (deref redirtied_a 0%nat) = Some 0%nat /\
  forget (deref redirtied_a 0%nat) = false /\
  redirtiedAt (deref redirtied_a 0%nat) ≠ 0 /\
  redirtiedWithRatelimit (deref redirtied_a 0%nat) = false /\
  exists q',
    handleQueueItemObject (at_time 10) None 0%nat redirtied_a = Ok (None, q') /\
    items q' = [1%nat] /\
    plannedToStartWorkAt (deref q' 1%nat) = 5 /\
    addedViaRedirty (deref q' 1%nat) = true /\
    ratelimiterCalls q' = [CallForget "a"].
Proof.
  assert (Hb : itemsBeingProcessed redirtied_a
                 !! key (deref redirtied_a 0%nat) = Some 0%nat)
    by (vm_compute; reflexivity).
  assert (Hf : forget (deref redirtied_a 0%nat) = false)
    by (vm_compute; reflexivity).
  assert (Hr : redirtiedAt (deref redirtied_a 0%nat) ≠ 0)
    by (vm_compute; discriminate).
  assert (Hl : redirtiedWithRatelimit (deref redirtied_a 0%nat) = false)
    by (vm_compute; reflexivity).
  split_and!; [apply queue_inv_redirtied_a|exact Hb|exact Hf|exact Hr|exact Hl|].
  destruct (completion_reinserts_redirtied (at_time 10) None 0%nat redirtied_a
              queue_inv_redirtied_a Hb Hf Hr (or_introl eq_refl) (or_introl Hl))
    as (q' & l1 & l2 & Hdone & _ & Hi & Hi' & _ & _ & Hnew & _ & Hc).
  exists q'.
  assert (Hempty : items redirtied_a = []) by (vm_compute; reflexivity).
  rewrite Hempty in Hi. symmetry in Hi. apply app_eq_nil in Hi as [-> ->].
  change (nextPtr redirtied_a) with 1%nat in *.
  split_and!; [exact Hdone|exact Hi'| | |].
  - rewrite Hnew. vm_compute. reflexivity.
  - by rewrite Hnew.
  - rewrite Hc. vm_compute. reflexivity.
Defined.

(** C2 with the delay of the specification.  "a" was enqueued again at
    time 5 while it was being processed, and its handler returns at time
    10.  The specification's delay [max(0, 5 - 10) = 0] plans the new item
    at time 10; the code passes the delay [5 - 10] on and plans it at 5. *)
Lemma redirty_delay_is_not_clamped :
  forget (deref redirtied_a 0%nat) = false /\
  redirtiedAt (deref redirtied_a 0%nat) = 5 /\
  redirtiedWithRatelimit (deref redirtied_a 0%nat) = false /\
  exists q_code q_spec,
    handleQueueItemObject (at_time 10) None 0%nat redirtied_a
      = Ok (None, q_code) /\
    reinsert_redirtied_spec 10 None 0%nat redirtied_a = Ok (None, q_spec) /\
    pendingTimes q_code = [5] /\
    pendingTimes q_spec = [10].
Proof.
  split_and!; [vm_compute; reflexivity..|].
  eexists _, _. split_and!; vm_compute; reflexivity.
Qed.

(** C3 on the code.  The due-time test of [getNextItem] and the delay of
    the completion re-insert are computed by [time.Until], which reads the
    process clock: with one and the same reading of the injected clock,
    two readings of the process clock give different outcomes. *)
Lemma time_until_reads_the_process_clock :
  pendingTimes delayed_b = [5] /\
  (getNextItem_step (mkInstant 0 0) delayed_b).1 = WaitTimer 5 /\
  (getNextItem_step (mkInstant 0 100) delayed_b).1 = Picked 0%nat /\
  exists q1 q2,
    handleQueueItemObject (mkInstant 10 10) None 0%nat redirtied_a
      = Ok (None, q1) /\
    handleQueueItemObject (mkInstant 10 3) None 0%nat redirtied_a
      = Ok (None, q2) /\
    pendingTimes q1 = [5] /\
    pendingTimes q2 = [12].
Proof.
  split_and!; [vm_compute; reflexivity..|].
  eexists _, _. split_and!; vm_compute; reflexivity.
Qed.

(** * Properties of the pod requests *)

Import Utils.

Section resource_lists.
Implicit Types (list new : ResourceList) (name : string).

Lemma addResourceList_lookup list new name :
  addResourceList list new !! name = withOverhead (list !! name) (new !! name).
Proof.
  unfold addResourceList. revert name.
  apply (map_fold_weak_ind
    (fun (r m : ResourceList) => forall name, r !! name = withOverhead (list !! name) (m !! name))).
  - intros name. rewrite lookup_empty. by destruct (list !! name).
  - intros i x m r Hi IH name.
    pose proof (IH i) as Hri. rewrite Hi in Hri.
    destruct (decide (i = name)) as [<-|Hne].
    + rewrite lookup_insert_eq.
      destruct (list !! i) as [v|]; simpl in Hri; rewrite Hri;
        by rewrite lookup_insert_eq.
    + rewrite lookup_insert_ne by done.
      destruct (r !! i); rewrite lookup_insert_ne by done; apply IH.
Qed.

Lemma maxResourceList_lookup list new name :
  maxResourceList list new !! name = greater (list !! name) (new !! name).
Proof.
  unfold maxResourceList. revert name.
  apply (map_fold_weak_ind
    (fun (r m : ResourceList) => forall name, r !! name = greater (list !! name) (m !! name))).
  - intros name. rewrite lookup_empty. by destruct (list !! name).
  - intros i x m r Hi IH name.
    pose proof (IH i) as Hri. rewrite Hi in Hri.
    destruct (decide (i = name)) as [<-|Hne].
    + rewrite lookup_insert_eq.
      destruct (list !! i) as [v|]; simpl in Hri; rewrite Hri.
      * unfold Cmp, DeepCopy. destruct (Z.compare_spec x v); simpl.
        -- rewrite Hri. f_equal. lia.
        -- rewrite Hri. f_equal. lia.
        -- rewrite lookup_insert_eq. f_equal. lia.
      * by rewrite lookup_insert_eq.
    + rewrite lookup_insert_ne by done.
      destruct (r !! i) as [v|].
      * destruct (Cmp x v >? 0); [rewrite lookup_insert_ne by done|]; apply IH.
      * rewrite lookup_insert_ne by done. apply IH.
Qed.

(** The two loops over the containers, resource by resource. *)
Lemma sum_loop_lookup (cs : list Container) reqs limits name :
  (foldl (fun '(reqs, limits) container =>
            (addResourceList reqs (Requests (Resources container)),
             addResourceList limits (Limits (Resources container))))
         (reqs, limits) cs).1 !! name =
  foldl withOverhead (reqs !! name)
        ((fun c => Requests (Resources c) !! name) <$> cs).
Proof.
  revert reqs limits. induction cs as [|c cs IH]; intros reqs limits; [done|].
  simpl. by rewrite IH, addResourceList_lookup.
Qed.

Lemma max_loop_lookup (cs : list Container) reqs limits name :
  (foldl (fun '(reqs, limits) container =>
            (maxResourceList reqs (Requests (Resources container)),
             maxResourceList limits (Limits (Resources container))))
         (reqs, limits) cs).1 !! name =
  foldl greater (reqs !! name)
        ((fun c => Requests (Resources c) !! name) <$> cs).
Proof.
  revert reqs limits. induction cs as [|c cs IH]; intros reqs limits; [done|].
  simpl. by rewrite IH, maxResourceList_lookup.
Qed.

Lemma foldl_sum_Some a (cs : list Container) name :
  foldl withOverhead (Some a) ((fun c => Requests (Resources c) !! name) <$> cs)
  = Some (a + total (requested name cs)).
Proof.
  revert a. induction cs as [|c cs IH]; intros a; simpl.
  - f_equal. unfold total. simpl. lia.
  - unfold requested. simpl.
    destruct (Requests (Resources c) !! name) as [x|]; simpl.
    + rewrite IH. f_equal. unfold requested, total. simpl. lia.
    + by rewrite IH.
Qed.

Lemma foldl_sum_None (cs : list Container) name :
  foldl withOverhead None ((fun c => Requests (Resources c) !! name) <$> cs)
  = match requested name cs with
    | [] => None
    | l => Some (total l)
    end.
Proof.
  induction cs as [|c cs IH]; simpl; [done|].
  unfold requested. simpl.
  destruct (Requests (Resources c) !! name) as [x|]; simpl; [|exact IH].
  by rewrite foldl_sum_Some.
Qed.

Lemma greatest_max a x l : greatest (Z.max a x) l = Z.max x (greatest a l).
Proof. induction l as [|y l IH]; simpl; [lia|]. rewrite IH. lia. Qed.

Lemma foldl_max_Some a (cs : list Container) name :
  foldl greater (Some a) ((fun c => Requests (Resources c) !! name) <$> cs)
  = Some (greatest a (requested name cs)).
Proof.
  revert a. induction cs as [|c cs IH]; intros a; simpl; [done|].
  unfold requested. simpl.
  destruct (Requests (Resources c) !! name) as [x|]; simpl.
  - rewrite IH. by rewrite greatest_max.
  - by rewrite IH.
Qed.

Lemma foldl_max_None (cs : list Container) name :
  foldl greater None ((fun c => Requests (Resources c) !! name) <$> cs)
  = match requested name cs with
    | [] => None
    | i :: inits => Some (greatest i inits)
    end.
Proof.
  induction cs as [|c cs IH]; simpl; [done|].
  unfold requested. simpl.
  destruct (Requests (Resources c) !! name) as [x|]; simpl; [|exact IH].
  by rewrite foldl_max_Some.
Qed.

End resource_lists.

Section pod_requests.
Variable PodOverheadEnabled : bool.
Variable Resource : Type.
Variable ConvertResource : ResourceList -> option Resource.

Lemma PodRequestsAndLimits_requests pod name :
  (PodRequestsAndLimits PodOverheadEnabled pod).1 !! name =
  withOverhead (containerRequest pod name)
               (countedOverhead PodOverheadEnabled pod name).
Proof.
  unfold PodRequestsAndLimits.
  pose proof (sum_loop_lookup (Containers (Spec pod)) ∅ ∅ name) as Hsum.
  destruct (foldl _ (∅, ∅) (Containers (Spec pod))) as [reqs limits].
  pose proof (max_loop_lookup (InitContainers (Spec pod)) reqs limits name) as Hmax.
  destruct (foldl _ (reqs, limits) (InitContainers (Spec pod))) as [reqs' limits'].
  simpl in Hsum, Hmax.
  assert (Hbase : reqs' !! name = containerRequest pod name).
  { rewrite Hmax, Hsum, lookup_empty, foldl_sum_None. unfold containerRequest.
    destruct (requested name (Containers (Spec pod))) as [|c cs].
    - by rewrite foldl_max_None.
    - by rewrite foldl_max_Some. }
  unfold countedOverhead.
  destruct (Overhead (Spec pod)) as [overhead|]; simpl.
  - destruct PodOverheadEnabled; simpl.
    + by rewrite addResourceList_lookup, Hbase.
    + rewrite Hbase. by destruct (containerRequest pod name).
  - rewrite Hbase. by destruct (containerRequest pod name).
Qed.

(** C10, as the code has it.  [GetRequestFromPod] returns nil for the nil
    pod.  For a pod it returns what [common.ConvertResource] makes of the
    requests that hold, for every resource, the sum of the containers'
    requests raised to the greatest init container request, plus the
    pod's overhead when the pod has one and the PodOverhead feature is
    enabled; the result is not nil when [ConvertResource] returns none. *)
Theorem GetRequestFromPod_spec pod :
  GetRequestFromPod PodOverheadEnabled Resource ConvertResource None = None /\
  (exists reqs,
     (forall name,
        reqs !! name =
          withOverhead (containerRequest pod name)
                       (countedOverhead PodOverheadEnabled pod name)) /\
     GetRequestFromPod PodOverheadEnabled Resource ConvertResource (Some pod)
       = ConvertResource reqs) /\
  ((forall reqs, ConvertResource reqs ≠ None) ->
   GetRequestFromPod PodOverheadEnabled Resource ConvertResource (Some pod)
     ≠ None).
Proof.
  split_and!.
  - done.
  - exists (PodRequestsAndLimits PodOverheadEnabled pod).1. split.
    + apply PodRequestsAndLimits_requests.
    + unfold GetRequestFromPod.
      by destruct (PodRequestsAndLimits PodOverheadEnabled pod).
  - intros Hnonnil. unfold GetRequestFromPod.
    destruct (PodRequestsAndLimits PodOverheadEnabled pod). apply Hnonnil.
Qed.

End pod_requests.

Lemma GetRequestFromPod_spec_witness :
  (forall reqs : ResourceList, Some reqs ≠ None) /\
  GetRequestFromPod false ResourceList Some (Some init_pod) ≠ None /\
  exists reqs,
    GetRequestFromPod false ResourceList Some (Some init_pod) = Some reqs /\
    reqs !! "cpu" = Some 3.
Proof.
  assert (Hnonnil : forall reqs : ResourceList, Some reqs ≠ None) by done.
  destruct (GetRequestFromPod_spec false ResourceList Some init_pod)
    as (_ & (reqs & Hreqs & Hget) & Hsome).
  split_and!; [exact Hnonnil|exact (Hsome Hnonnil)|].
  exists reqs. split; [exact Hget|].
  rewrite Hreqs. vm_compute. reflexivity.
Defined.

(** C10 without the overhead.  With the PodOverhead feature enabled, a pod
    whose one container requests 1 cpu and whose overhead is 1 cpu is
    reported with 2 cpu, not with the 1 cpu of its containers. *)
Lemma GetRequestFromPod_adds_overhead :
  containerRequest small_pod "cpu" = Some 1 /\
  exists reqs,
    GetRequestFromPod true ResourceList Some (Some small_pod) = Some reqs /\
    reqs !! "cpu" = Some 2.
Proof.
  split; [vm_compute; reflexivity|].
  eexists. split; vm_compute; reflexivity.
Qed.

(** * Further properties of the work queue *)

Section counting.
Context {R : Type} `{!RateLimiter R}.
Implicit Types (q : Queue R) (k : string) (p e item qi : ptr).

Lemma inv_keys_NoDup q : queue_inv q -> NoDup (pendingKeys q).
Proof.
  intros Hinv. unfold pendingKeys.
  apply NoDup_fmap_2_strong; [|apply (inv_nodup q Hinv)].
  intros x y Hx Hy Hxy.
  assert (itemsInQueue q !! key (deref q x) = Some x)
    by (by apply (inv_index q Hinv)).
  assert (itemsInQueue q !! key (deref q x) = Some y)
    by (by apply (inv_index q Hinv)).
  congruence.
Qed.

Lemma inv_dom_pending q :
  queue_inv q -> dom (itemsInQueue q) = list_to_set (pendingKeys q).
Proof.
  intros Hinv. apply set_eq. intros k.
  rewrite elem_of_dom, elem_of_list_to_set. unfold pendingKeys.
  rewrite list_elem_of_fmap. split.
  - intros [p Hq]. apply (inv_index q Hinv) in Hq as [Hp Hk]. by exists p.
  - intros (p & Hk & Hp). exists p. by apply (inv_index q Hinv).
Qed.

Lemma inv_size q : queue_inv q -> size (itemsInQueue q) = length (items q).
Proof.
  intros Hinv. rewrite <- (size_dom (D := gset string)), inv_dom_pending by done.
  rewrite size_list_to_set by (by apply inv_keys_NoDup).
  unfold pendingKeys. by rewrite length_fmap.
Qed.

Lemma Len_inv q :
  queue_inv q ->
  Len q = Ok (Z.of_nat (length (items q)) +
              Z.of_nat (size (itemsBeingProcessed q))).
Proof.
  intros Hinv. unfold Len. by rewrite bool_decide_eq_true_2 by (by rewrite inv_size).
Qed.

(** X1.  [Len] in a state of the queue: it returns, and what it returns is the
    number of distinct keys that are pending or being processed. *)
Theorem Len_counts_the_known_keys q :
  queue_inv q ->
  Len q =
    Ok (Z.of_nat (size (dom (itemsInQueue q) ∪ dom (itemsBeingProcessed q)))) /\
  (forall k, k ∈ dom (itemsInQueue q) ∪ dom (itemsBeingProcessed q)
             <-> known k q).
Proof.
  intros Hinv. split.
  - rewrite Len_inv by done. f_equal.
    rewrite size_union.
    + rewrite !size_dom, inv_size by done. lia.
    + intros k Hq Hb. rewrite elem_of_dom in Hq, Hb.
      by apply (inv_exclusive q Hinv k).
  - intros k. unfold known. by rewrite elem_of_union, !elem_of_dom.
Qed.

(** X2.  [Empty] in a state of the queue: it returns, and it says yes exactly
    when nothing is pending and nothing is being processed. *)
Theorem Empty_iff_no_work q :
  queue_inv q ->
  exists b, Empty q = Ok b /\
    (b = true <-> items q = [] /\ itemsBeingProcessed q = ∅).
Proof.
  intros Hinv. unfold Empty. rewrite Len_inv by done. simpl.
  eexists. split; [reflexivity|].
  rewrite Z.eqb_eq. split.
  - intros Hz. split.
    + apply length_zero_iff_nil. lia.
    + apply map_size_empty_inv. lia.
  - intros [-> ->]. by rewrite map_size_empty.
Qed.

End counting.

Lemma Len_counts_the_known_keys_witness :
  queue_inv redirtied_a /\ Len redirtied_a = Ok 1 /\
  queue_inv pending_a_then_b /\ Len pending_a_then_b = Ok 2.
Proof.
  destruct (Len_counts_the_known_keys redirtied_a queue_inv_redirtied_a)
    as [H1 _].
  destruct (Len_counts_the_known_keys pending_a_then_b
              queue_inv_pending_a_then_b) as [H2 _].
  split_and!; [apply queue_inv_redirtied_a|rewrite H1; vm_compute; reflexivity|
               apply queue_inv_pending_a_then_b|rewrite H2; vm_compute; reflexivity].
Defined.

Lemma Empty_iff_no_work_witness :
  queue_inv (New tt) /\ Empty (New tt) = Ok true /\
  queue_inv pending_a /\ Empty pending_a = Ok false.
Proof.
  destruct (Empty_iff_no_work (New tt) (queue_inv_New tt)) as (b1 & H1 & Hb1).
  destruct (Empty_iff_no_work pending_a queue_inv_pending_a) as (b2 & H2 & Hb2).
  split_and!; [apply queue_inv_New| |apply queue_inv_pending_a|].
  - rewrite H1. f_equal. apply Hb1. by split.
  - rewrite H2. f_equal. destruct b2; [|done].
    destruct Hb2 as [Hb2 _]. destruct (Hb2 eq_refl) as [Hnil _].
    vm_compute in Hnil. discriminate.
Defined.

Section enqueue_and_pickup.
Context {R : Type} `{!RateLimiter R}.
Implicit Types (q : Queue R) (k : string) (p e item qi : ptr).

Lemma inv_inflight_not_in_items q k p :
  queue_inv q -> itemsBeingProcessed q !! k = Some p -> p ∉ items q.
Proof.
  intros Hinv Hb Hin.
  destruct (inv_inflight q Hinv k p Hb) as [_ Hk].
  apply (inv_exclusive q Hinv k); [|by eexists].
  exists p. by apply (inv_index q Hinv).
Qed.

(** X3.  An insert never makes the queue hold a key twice: for a key that is
    pending or being processed [Len] stays as it is, for any other key
    it grows by one, and the item that [insert] returns is the one item
    of the key. *)
Theorem insert_adds_a_key_at_most_once now k ratelimit delay q p q' :
  queue_inv q ->
  insert now k ratelimit delay q = Ok (p, q') ->
  key (deref q' p) = k /\
  (itemsInQueue q' !! k = Some p \/ itemsBeingProcessed q' !! k = Some p) /\
  exists n,
    Len q = Ok n /\
    Len q' = Ok (if bool_decide (known k q) then n else n + 1).
Proof.
  intros Hinv Hins.
  pose proof (insert_inv _ _ _ _ _ _ _ Hinv Hins) as Hinv'.
  rewrite (Len_inv q Hinv), (Len_inv q' Hinv'). unfold known.
  destruct (itemsBeingProcessed q !! k) as [item|] eqn:Hb.
  { rewrite (insert_inflight _ _ _ _ _ item) in Hins by done.
    injection Hins as <- <-.
    assert (Hb' : itemsBeingProcessed
              (send_wakeup (assign item (set_forget false)
                 (if IsZero (redirtiedAt (deref q item))
                     || Before (clockNow now + delay) (redirtiedAt (deref q item))
                  then assign item (set_redirtied (clockNow now + delay) ratelimit) q
                  else q))) = itemsBeingProcessed q)
      by (by destruct (_ || _)).
    assert (Hi' : items
              (send_wakeup (assign item (set_forget false)
                 (if IsZero (redirtiedAt (deref q item))
                     || Before (clockNow now + delay) (redirtiedAt (deref q item))
                  then assign item (set_redirtied (clockNow now + delay) ratelimit) q
                  else q))) = items q)
      by (by destruct (_ || _)).
    split_and!.
    - apply (inv_inflight _ Hinv' k). by rewrite Hb'.
    - right. by rewrite Hb'.
    - eexists. split; [reflexivity|].
      rewrite bool_decide_eq_true_2 by (right; by eexists).
      by rewrite Hb', Hi'. }
  destruct (itemsInQueue q !! k) as [item|] eqn:Hq.
  { destruct (inv_pending_elem q k item Hinv Hq) as [Hin Hk].
    rewrite (insert_pending _ _ _ _ _ item) in Hins by done.
    injection Hins as <- <-.
    set (when := clockNow now + delay) in *.
    assert (Hfields :
      itemsInQueue (send_wakeup (adjustPosition item when q)) = itemsInQueue q /\
      itemsBeingProcessed (send_wakeup (adjustPosition item when q))
        = itemsBeingProcessed q /\
      length (items (send_wakeup (adjustPosition item when q)))
        = length (items q)).
    { destruct (Z.lt_ge_cases (plannedToStartWorkAt (deref q item)) when)
        as [Hlt|Hge].
      - by rewrite adjustPosition_later.
      - destruct (adjustPosition_spec q item when Hinv Hin Hge)
          as (l1 & l2 & l3 & Hl & _ & _ & ->).
        split_and!; [done|done|]. simpl. rewrite Hl.
        rewrite !length_app. simpl. rewrite !length_app. simpl. lia. }
    destruct Hfields as (Hq' & Hb' & Hlen).
    split_and!.
    - apply (inv_index _ Hinv'). by rewrite Hq'.
    - left. by rewrite Hq'.
    - eexists. split; [reflexivity|].
      rewrite bool_decide_eq_true_2 by (left; by eexists).
      by rewrite Hb', Hlen. }
  assert (Hok : ratelimit = false \/ delay <= 0).
  { destruct ratelimit; [|by left]. right.
    destruct (Z.lt_ge_cases 0 delay) as [Hpos|]; [|done].
    by rewrite insert_new_panics in Hins. }
  destruct (insert_new_spec now k ratelimit delay q Hinv Hb Hq Hok)
    as (l1 & l2 & Hl & _ & _ & Hnew).
  rewrite Hnew in Hins. injection Hins as <- <-.
  split_and!.
  - unfold deref. simpl. by rewrite lookup_total_insert_eq.
  - left. simpl. apply lookup_insert_eq.
  - eexists. split; [reflexivity|].
    rewrite bool_decide_eq_false_2.
    + simpl. rewrite Hl, !length_app. simpl. f_equal. lia.
    + intros [[? ?]|[? ?]]; congruence.
Qed.

(** X4.  Where a new item goes.  The item of a key that the queue does not
    know is planned at the clock's time plus the delay (the rate
    limiter's, when rate-limited) and is put behind every pending item
    that is planned strictly earlier and in front of all the others; the
    items that were pending keep their order and are not changed. *)
Theorem new_item_goes_behind_the_earlier_items now k ratelimit delay q :
  queue_inv q ->
  ~ known k q ->
  ratelimit = false \/ delay <= 0 ->
  exists q' l1 l2,
    insert now k ratelimit delay q = Ok (nextPtr q, q') /\
    items q = l1 ++ l2 /\
    items q' = l1 ++ nextPtr q :: l2 /\
    plannedToStartWorkAt (deref q' (nextPtr q)) =
      clockNow now +
        (if ratelimit then (rl_When k (ratelimiter q)).1 else delay) /\
    Forall (fun p => plannedToStartWorkAt (deref q' p)
                     < plannedToStartWorkAt (deref q' (nextPtr q))) l1 /\
    Forall (fun p => plannedToStartWorkAt (deref q' (nextPtr q))
                     <= plannedToStartWorkAt (deref q' p)) l2 /\
    (forall p, p ∈ items q -> deref q' p = deref q p).
Proof.
  intros Hinv Hnew Hok.
  assert (Hb : itemsBeingProcessed q !! k = None).
  { destruct (itemsBeingProcessed q !! k) eqn:E; [|done].
    exfalso. apply Hnew. right. by eexists. }
  assert (Hq : itemsInQueue q !! k = None).
  { destruct (itemsInQueue q !! k) eqn:E; [|done].
    exfalso. apply Hnew. left. by eexists. }
  destruct (insert_new_spec now k ratelimit delay q Hinv Hb Hq Hok)
    as (l1 & l2 & Hl & H1 & H2 & Hins).
  match type of Hins with _ = Ok (_, ?Q) => set (q' := Q) in * end.
  assert (Hd : forall p, deref q' p =
            if decide (nextPtr q = p)
            then mkItem k
                   (clockNow now +
                      (if ratelimit then (rl_When k (ratelimiter q)).1 else delay))
                   0 false false 0 (clockNow now) false
                   (if ratelimit then Some (rl_When k (ratelimiter q)).1 else None)
            else deref q p).
  { intros p. unfold deref, q'. cbn [store]. rewrite lookup_total_insert.
    by destruct (decide (nextPtr q = p)), ratelimit. }
  assert (Hold : forall p, p ∈ items q -> deref q' p = deref q p).
  { intros p Hp. rewrite Hd, decide_False; [done|].
    apply (inv_alloc q Hinv) in Hp. lia. }
  exists q', l1, l2. split_and!; try done.
  - by rewrite Hd, decide_True.
  - rewrite Hd, decide_True by done. simpl.
    apply Forall_forall. intros p Hp.
    rewrite Hold by (rewrite Hl, elem_of_app; by left).
    by eapply Forall_forall in H1.
  - rewrite Hd, decide_True by done. simpl.
    apply Forall_forall. intros p Hp.
    rewrite Hold by (rewrite Hl, elem_of_app; by right).
    by eapply Forall_forall in H2.
Qed.

(** X5.  What the dispatcher decides under the lock.  It hands out the front
    item only when that item is due by the process clock; the item is
    then planned no later than any other pending item, its key was not
    being processed and is so afterwards, and [Len] is as before.  It
    waits for a wakeup only on an empty list.  Otherwise it leaves the
    state alone and waits for the time that is left until the front item
    is due, before which no pending item is due. *)
Theorem getNextItem_step_cases now q :
  queue_inv q ->
  match getNextItem_step now q with
  | (Picked e, q') =>
      head (items q) = Some e /\
      items q' = tail (items q) /\
      plannedToStartWorkAt (deref q e) <= wallNow now /\
      (forall p, p ∈ items q ->
         plannedToStartWorkAt (deref q e) <= plannedToStartWorkAt (deref q p)) /\
      itemsBeingProcessed q !! key (deref q e) = None /\
      itemsBeingProcessed q' !! key (deref q e) = Some e /\
      itemsInQueue q' !! key (deref q e) = None /\
      Len q' = Len q
  | (WaitWakeup, q') => items q = [] /\ q' = q
  | (WaitTimer d, q') =>
      q' = q /\ 0 < d /\
      (exists e, head (items q) = Some e /\
                 plannedToStartWorkAt (deref q e) = wallNow now + d) /\
      (forall p, p ∈ items q ->
         wallNow now + d <= plannedToStartWorkAt (deref q p))
  end.
Proof.
  intros Hinv.
  pose proof (getNextItem_step_inv now q Hinv) as Hinv'.
  assert (Hmin : forall e l, items q = e :: l -> forall p, p ∈ items q ->
            plannedToStartWorkAt (deref q e) <= plannedToStartWorkAt (deref q p)).
  { intros e l Hl p Hp. assert (Hso := inv_sorted q Hinv). rewrite Hl in Hso, Hp.
    apply StronglySorted_cons in Hso as [Hall _].
    apply elem_of_cons in Hp as [->|Hp]; [lia|].
    by eapply Forall_forall in Hall. }
  unfold getNextItem_step in *.
  destruct (items q) as [|e l] eqn:Hl; simpl in *; [done|].
  unfold Until in *.
  destruct (Z.leb_spec (plannedToStartWorkAt (deref q e) - wallNow now) 0)
    as [Hdue|Hwait]; simpl in *.
  - rewrite decide_True in * by done.
    assert (Hq : itemsInQueue q !! key (deref q e) = Some e).
    { apply (inv_index q Hinv). split; [rewrite Hl; by left|done]. }
    assert (Hb : itemsBeingProcessed q !! key (deref q e) = None).
    { destruct (itemsBeingProcessed q !! key (deref q e)) eqn:E; [|done].
      exfalso. apply (inv_exclusive q Hinv (key (deref q e))); by eexists. }
    split_and!; try done.
    + lia.
    + by apply (Hmin e l).
    + apply lookup_insert_eq.
    + apply lookup_delete_eq.
    + rewrite (Len_inv _ Hinv'), (Len_inv q Hinv). simpl.
      rewrite Hl. simpl. rewrite map_size_insert_None by done. f_equal. lia.
  - split_and!; try done.
    + exists e. split; [done|lia].
    + intros p Hp. specialize (Hmin e l eq_refl p Hp). lia.
Qed.

End enqueue_and_pickup.

Lemma insert_adds_a_key_at_most_once_witness :
  queue_inv pending_a /\
  insert (at_time 0) "b" false 0 pending_a = Ok (1%nat, pending_a_then_b) /\
  Len pending_a = Ok 1 /\
  Len pending_a_then_b = Ok 2.
Proof.
  assert (Hins : insert (at_time 0) "b" false 0 pending_a
                 = Ok (1%nat, pending_a_then_b)) by (vm_compute; reflexivity).
  destruct (insert_adds_a_key_at_most_once (at_time 0) "b" false 0 pending_a
              1%nat pending_a_then_b queue_inv_pending_a Hins)
    as (_ & _ & n & Hn & Hn').
  split_and!; [apply queue_inv_pending_a|exact Hins|vm_compute; reflexivity|].
  rewrite Hn'. rewrite bool_decide_eq_false_2.
  - assert (Len pending_a = Ok 1) as Hone by (vm_compute; reflexivity).
    rewrite Hone in Hn. by injection Hn as <-.
  - intros [[x Hx]|[x Hx]]; vm_compute in Hx; discriminate.
Defined.

Lemma new_item_goes_behind_the_earlier_items_witness :
  queue_inv delayed_b_then_a /\
  ~ known "c" delayed_b_then_a /\
  exists q',
    insert (at_time 0) "c" false 5 delayed_b_then_a = Ok (2%nat, q') /\
    items delayed_b_then_a = [1%nat; 0%nat] /\
    items q' = [2%nat; 1%nat; 0%nat].
Proof.
  assert (Hnew : ~ known "c" delayed_b_then_a).
  { intros [[x Hx]|[x Hx]]; vm_compute in Hx; discriminate. }
  split; [apply queue_inv_delayed_b_then_a|]. split; [exact Hnew|].
  destruct (new_item_goes_behind_the_earlier_items (at_time 0) "c" false 5
              delayed_b_then_a queue_inv_delayed_b_then_a Hnew
              (or_introl eq_refl))
    as (q' & l1 & l2 & Hins & _).
  exists q'. split; [exact Hins|]. split; [vm_compute; reflexivity|].
  vm_compute in Hins. injection Hins as <-. vm_compute. reflexivity.
Defined.

Lemma getNextItem_step_cases_witness :
  queue_inv pending_a_then_b /\
  exists q',
    getNextItem_step (at_time 0) pending_a_then_b = (Picked 1%nat, q') /\
    items q' = [0%nat] /\
    Len q' = Len pending_a_then_b.
Proof.
  split; [apply queue_inv_pending_a_then_b|].
  pose proof (getNextItem_step_cases (at_time 0) pending_a_then_b
                queue_inv_pending_a_then_b) as Hcases.
  destruct (getNextItem_step (at_time 0) pending_a_then_b) as [n q'] eqn:Hstep.
  assert (Hn : n = Picked 1%nat).
  { vm_compute in Hstep. by injection Hstep as <- _. }
  subst n. destruct Hcases as (_ & Hi & _ & _ & _ & _ & _ & HLen).
  exists q'. split_and!; [done| |exact HLen].
  rewrite Hi. vm_compute. reflexivity.
Defined.

Section while_processing.
Context {R : Type} `{!RateLimiter R}.
Implicit Types (q : Queue R) (k : string) (p e item qi : ptr).

Lemma assign_assign p f g q :
  assign p f (assign p g q) = assign p (fun it => f (g it)) q.
Proof.
  unfold assign at 1 3. rewrite deref_assign, decide_True by done.
  unfold assign, set_store. simpl. by rewrite insert_insert_eq.
Qed.

Lemma assign_ext p f g q :
  f (deref q p) = g (deref q p) -> assign p f q = assign p g q.
Proof. intros Heq. unfold assign. by rewrite Heq. Qed.

(** The in-flight branch of [insert], with the item it leaves. *)
Lemma insert_inflight_spec now k ratelimit delay q item :
  itemsBeingProcessed q !! k = Some item ->
  exists q',
    insert now k ratelimit delay q = Ok (item, q') /\
    items q' = items q /\
    itemsInQueue q' = itemsInQueue q /\
    itemsBeingProcessed q' = itemsBeingProcessed q /\
    (forall p, p ≠ item -> deref q' p = deref q p) /\
    deref q' item =
      set_forget false
        (if IsZero (redirtiedAt (deref q item))
            || Before (clockNow now + delay) (redirtiedAt (deref q item))
         then set_redirtied (clockNow now + delay) ratelimit (deref q item)
         else deref q item).
Proof.
  intros Hb. rewrite (insert_inflight _ _ _ _ _ item) by done.
  eexists. split; [reflexivity|].
  assert (Hd : forall q0 p, deref (send_wakeup q0) p = deref q0 p) by done.
  destruct (_ || _); (split_and!; [done|done|done| |]).
  - intros p Hne. by rewrite Hd, !deref_assign, !decide_False.
  - by rewrite Hd, !deref_assign, !decide_True.
  - intros p Hne. by rewrite Hd, !deref_assign, !decide_False.
  - by rewrite Hd, !deref_assign, !decide_True.
Qed.

(** X6.  Of two enqueues that arrive while the key is being processed, the one
    with the earlier time decides: [redirtiedAt] is the smaller of the two
    times and [redirtiedWithRatelimit] is the flag that came with it (the
    first one's, when the times are equal). *)
Theorem redirty_keeps_the_earliest_time n1 r1 d1 n2 r2 d2 k q item :
  itemsBeingProcessed q !! k = Some item ->
  redirtiedAt (deref q item) = 0 ->
  clockNow n1 + d1 ≠ 0 ->
  exists q1 q2,
    insert n1 k r1 d1 q = Ok (item, q1) /\
    insert n2 k r2 d2 q1 = Ok (item, q2) /\
    redirtiedAt (deref q2 item) = Z.min (clockNow n1 + d1) (clockNow n2 + d2) /\
    redirtiedWithRatelimit (deref q2 item) =
      (if clockNow n2 + d2 <? clockNow n1 + d1 then r2 else r1) /\
    forget (deref q2 item) = false /\
    items q2 = items q /\ itemsInQueue q2 = itemsInQueue q.
Proof.
  intros Hb Hz Hw1.
  destruct (insert_inflight_spec n1 k r1 d1 q item Hb)
    as (q1 & Hins1 & Hi1 & Hq1 & Hb1 & _ & Hit1).
  rewrite <- Hb1 in Hb.
  destruct (insert_inflight_spec n2 k r2 d2 q1 item Hb)
    as (q2 & Hins2 & Hi2 & Hq2 & Hb2 & _ & Hit2).
  exists q1, q2. rewrite Hit2, Hit1. unfold IsZero, Before. rewrite Hz. simpl.
  destruct (Z.eqb_spec (clockNow n1 + d1) 0) as [|_]; [done|]. simpl.
  destruct (Z.ltb_spec (clockNow n2 + d2) (clockNow n1 + d1)); simpl;
    (split_and!; [done|done|lia|done|done|congruence|congruence]).
Qed.

(** X7.  An enqueue for a key that is being processed takes back a [Forget]
    that came before it: the state is the one the enqueue alone leads
    to, so the completion will not drop the key. *)
Theorem insert_undoes_an_earlier_Forget now k ratelimit delay q qi :
  queue_inv q ->
  itemsBeingProcessed q !! k = Some qi ->
  insert now k ratelimit delay (Forget k q) = insert now k ratelimit delay q.
Proof.
  intros Hinv Hb.
  assert (HF : Forget k q = assign qi (set_forget true) q).
  { unfold Forget. by rewrite (inv_inflight_not_pending q k qi Hinv Hb), Hb. }
  rewrite HF.
  rewrite (insert_inflight _ _ _ _ _ qi) by done.
  rewrite (insert_inflight _ _ _ _ _ qi) by done.
  rewrite deref_assign, decide_True by done. simpl.
  do 3 f_equal.
  destruct (_ || _).
  - rewrite !assign_assign. by apply assign_ext.
  - rewrite !assign_assign. by apply assign_ext.
Qed.

(** X8.  Forgetting a key twice is forgetting it once. *)
Theorem Forget_is_idempotent k q :
  queue_inv q -> Forget k (Forget k q) = Forget k q.
Proof.
  intros Hinv. unfold Forget at 2 3.
  destruct (itemsInQueue q !! k) as [item|] eqn:Hq.
  - assert (Hb : itemsBeingProcessed q !! k = None).
    { destruct (itemsBeingProcessed q !! k) eqn:E; [|done].
      exfalso. apply (inv_exclusive q Hinv k); by eexists. }
    unfold Forget. simpl. by rewrite lookup_delete_eq, Hb.
  - destruct (itemsBeingProcessed q !! k) as [qi|] eqn:Hb.
    + unfold Forget. simpl. rewrite Hq, Hb.
      rewrite assign_assign. by apply assign_ext.
    + unfold Forget. by rewrite Hq, Hb.
Qed.

(** X9.  The completion that ends the work on a key.  When the forget flag is
    clear, the item was not re-dirtied and the handler succeeded or the
    retries are used up, the key leaves the set being processed, the rate
    limiter is reset for it, and nothing is inserted; the error of the
    handler comes back wrapped. *)
Theorem completion_without_redirty_ends_the_key now err qi q :
  forget (deref q qi) = false ->
  redirtiedAt (deref q qi) = 0 ->
  err = None \/ MaxRetries <= int_add (requeues (deref q qi)) 1 ->
  exists q',
    handleQueueItemObject now err qi q =
      Ok (match err with
          | Some cause =>
              Some (Wrapf cause "forgetting due to maximum retries reached")
          | None => None
          end, q') /\
    itemsBeingProcessed q' =
      delete (key (deref q qi)) (itemsBeingProcessed q) /\
    items q' = items q /\
    itemsInQueue q' = itemsInQueue q /\
    store q' = store q /\
    ratelimiter q' = rl_Forget (key (deref q qi)) (ratelimiter q) /\
    ratelimiterCalls q' = ratelimiterCalls q ++ [CallForget (key (deref q qi))].
Proof.
  intros Hf Hz Hdone. unfold handleQueueItemObject.
  change (deref (set_itemsBeingProcessed ?m q) qi) with (deref q qi).
  change (deref (ratelimiter_Forget ?k0 ?q0) qi) with (deref q0 qi).
  change (deref (set_itemsBeingProcessed ?m q) qi) with (deref q qi).
  rewrite Hf, Hz. simpl.
  destruct err as [cause|].
  - destruct Hdone as [|Hmax]; [done|].
    destruct (Z.ltb_spec (int_add (requeues (deref q qi)) 1) MaxRetries); [lia|].
    eexists. split; [reflexivity|]. by split_and!.
  - eexists. split; [reflexivity|]. by split_and!.
Qed.

Lemma insert_wakeup now k ratelimit delay q p q' :
  insert now k ratelimit delay q = Ok (p, q') -> wakeupCh q' = true.
Proof.
  unfold insert.
  destruct (itemsBeingProcessed q !! k); [by intros [= <- <-]|].
  destruct (itemsInQueue q !! k); [by intros [= <- <-]|].
  destruct ratelimit.
  - destruct (delay >? 0); [done|].
    destruct (ratelimiter_When k q) as [d q1].
    destruct (link _ q1). by intros [= <- <-].
  - destruct (link _ q). by intros [= <- <-].
Qed.

(** X10.  No insert is lost on the dispatcher, and wakeups do not pile up: after
    any two inserts the dispatcher's receive finds a wakeup, and having
    taken it finds no second one. *)
Theorem inserts_leave_one_wakeup n1 k1 r1 d1 n2 k2 r2 d2 q p1 q1 p2 q2 :
  insert n1 k1 r1 d1 q = Ok (p1, q1) ->
  insert n2 k2 r2 d2 q1 = Ok (p2, q2) ->
  (exists q1', recv_wakeup q1 = Some q1' /\ recv_wakeup q1' = None) /\
  (exists q2', recv_wakeup q2 = Some q2' /\ recv_wakeup q2' = None /\
               items q2' = items q2 /\ store q2' = store q2).
Proof.
  intros H1 H2. apply insert_wakeup in H1, H2. unfold recv_wakeup.
  rewrite H1, H2. split; eexists; by split_and!.
Qed.

End while_processing.

Lemma redirty_keeps_the_earliest_time_witness :
  itemsBeingProcessed processing_a !! "a" = Some 0%nat /\
  redirtiedAt (deref processing_a 0%nat) = 0 /\
  exists q1 q2,
    insert (at_time 5) "a" false 10 processing_a = Ok (0%nat, q1) /\
    insert (at_time 6) "a" true 0 q1 = Ok (0%nat, q2) /\
    redirtiedAt (deref q2 0%nat) = 6 /\
    redirtiedWithRatelimit (deref q2 0%nat) = true.
Proof.
  assert (Hb : itemsBeingProcessed processing_a !! "a" = Some 0%nat)
    by (vm_compute; reflexivity).
  assert (Hz : redirtiedAt (deref processing_a 0%nat) = 0)
    by (vm_compute; reflexivity).
  split; [exact Hb|]. split; [exact Hz|].
  destruct (redirty_keeps_the_earliest_time (at_time 5) false 10 (at_time 6)
              true 0 "a" processing_a 0%nat Hb Hz)
    as (q1 & q2 & H1 & H2 & Hr & Hl & _); [vm_compute; discriminate|].
  exists q1, q2. split_and!; [exact H1|exact H2|exact Hr|exact Hl].
Defined.

Lemma insert_undoes_an_earlier_Forget_witness :
  queue_inv processing_a /\
  itemsBeingProcessed processing_a !! "a" = Some 0%nat /\
  forget (deref (Forget "a" processing_a) 0%nat) = true /\
  insert (at_time 5) "a" false 0 (Forget "a" processing_a)
    = insert (at_time 5) "a" false 0 processing_a.
Proof.
  assert (Hinv : queue_inv processing_a)
    by apply getNextItem_step_inv, queue_inv_pending_a.
  assert (Hb : itemsBeingProcessed processing_a !! "a" = Some 0%nat)
    by (vm_compute; reflexivity).
  split_and!; [exact Hinv|exact Hb|vm_compute; reflexivity|].
  exact (insert_undoes_an_earlier_Forget (at_time 5) "a" false 0 processing_a
           0%nat Hinv Hb).
Defined.

Lemma Forget_is_idempotent_witness :
  queue_inv pending_a_then_b /\
  pendingKeys (Forget "a" pending_a_then_b) = ["b"] /\
  Forget "a" (Forget "a" pending_a_then_b) = Forget "a" pending_a_then_b.
Proof.
  split_and!; [apply queue_inv_pending_a_then_b|vm_compute; reflexivity|].
  exact (Forget_is_idempotent "a" pending_a_then_b queue_inv_pending_a_then_b).
Defined.

Lemma completion_without_redirty_ends_the_key_witness :
  forget (deref processing_a 0%nat) = false /\
  redirtiedAt (deref processing_a 0%nat) = 0 /\
  exists q',
    handleQueueItemObject (at_time 3) None 0%nat processing_a = Ok (None, q') /\
    itemsBeingProcessed q' = ∅ /\ items q' = [].
Proof.
  assert (Hf : forget (deref processing_a 0%nat) = false)
    by (vm_compute; reflexivity).
  assert (Hz : redirtiedAt (deref processing_a 0%nat) = 0)
    by (vm_compute; reflexivity).
  split; [exact Hf|]. split; [exact Hz|].
  destruct (completion_without_redirty_ends_the_key (at_time 3) None 0%nat
              processing_a Hf Hz (or_introl eq_refl))
    as (q' & Hdone & Hb & Hi & _).
  exists q'. split_and!; [exact Hdone| |].
  - rewrite Hb. vm_compute. reflexivity.
  - rewrite Hi. vm_compute. reflexivity.
Defined.

Lemma inserts_leave_one_wakeup_witness :
  insert (at_time 0) "a" false 0 (New tt) = Ok (0%nat, pending_a) /\
  insert (at_time 0) "b" false 0 pending_a = Ok (1%nat, pending_a_then_b) /\
  exists q', recv_wakeup pending_a_then_b = Some q' /\ recv_wakeup q' = None.
Proof.
  assert (H1 : insert (at_time 0) "a" false 0 (New tt) = Ok (0%nat, pending_a))
    by (vm_compute; reflexivity).
  assert (H2 : insert (at_time 0) "b" false 0 pending_a
               = Ok (1%nat, pending_a_then_b)) by (vm_compute; reflexivity).
  split; [exact H1|]. split; [exact H2|].
  destruct (inserts_leave_one_wakeup _ _ _ _ _ _ _ _ _ _ _ _ _ H1 H2)
    as (_ & q' & Hr & Hn & _).
  by exists q'.
Defined.

Section fresh.
Context {R : Type} `{!RateLimiter R}.
Implicit Types (q : Queue R) (k : string) (p e item qi : ptr).

Lemma pending_fresh_assign_other q p f :
  (p ∉ items q) -> pending_fresh q -> pending_fresh (assign p f q).
Proof.
  intros Hp Hfresh p' Hp'. rewrite deref_assign, decide_False; [by apply Hfresh|].
  intros ->. by apply Hp.
Qed.

Lemma pending_fresh_assign q p f :
  (forall it, forget (f it) = forget it) ->
  (forall it, redirtiedAt (f it) = redirtiedAt it) ->
  pending_fresh q -> pending_fresh (assign p f q).
Proof.
  intros Hf Hr Hfresh p' Hp'. rewrite deref_assign.
  case_decide; [subst; rewrite Hf, Hr|]; by apply Hfresh.
Qed.

Lemma insert_fresh now k ratelimit delay q p q' :
  queue_inv q -> pending_fresh q ->
  insert now k ratelimit delay q = Ok (p, q') -> pending_fresh q'.
Proof.
  intros Hinv Hfresh Hins.
  destruct (itemsBeingProcessed q !! k) as [item|] eqn:Hb.
  { rewrite (insert_inflight _ _ _ _ _ item) in Hins by done.
    injection Hins as <- <-.
    pose proof (inv_inflight_not_in_items q k item Hinv Hb) as Hnot.
    assert (Hsw : forall q0, pending_fresh q0 -> pending_fresh (send_wakeup q0))
      by done.
    apply Hsw. destruct (_ || _).
    - apply pending_fresh_assign_other; [done|].
      by apply pending_fresh_assign_other.
    - by apply pending_fresh_assign_other. }
  destruct (itemsInQueue q !! k) as [item|] eqn:Hq.
  { destruct (inv_pending_elem q k item Hinv Hq) as [Hin Hk].
    rewrite (insert_pending _ _ _ _ _ item) in Hins by done.
    injection Hins as <- <-.
    set (when := clockNow now + delay).
    destruct (Z.lt_ge_cases (plannedToStartWorkAt (deref q item)) when)
      as [Hlt|Hge].
    - by rewrite adjustPosition_later.
    - destruct (adjustPosition_spec q item when Hinv Hin Hge)
        as (l1 & l2 & l3 & Hl & _ & _ & ->).
      intros p' Hp'.
      change (deref (send_wakeup (set_items ?l ?q0)) p') with (deref q0 p').
      assert (Hp : p' ∈ items q).
      { simpl in Hp'. rewrite Hl. revert Hp'.
        rewrite !elem_of_app, !elem_of_cons, !elem_of_app. tauto. }
      rewrite deref_assign. case_decide; [subst; simpl|]; by apply Hfresh. }
  assert (Hok : ratelimit = false \/ delay <= 0).
  { destruct ratelimit; [|by left]. right.
    destruct (Z.lt_ge_cases 0 delay) as [Hpos|]; [|done].
    by rewrite insert_new_panics in Hins. }
  destruct (insert_new_spec now k ratelimit delay q Hinv Hb Hq Hok)
    as (l1 & l2 & Hl & _ & _ & Hnew).
  rewrite Hnew in Hins. injection Hins as <- <-.
  intros p' Hp'. simpl in Hp'. unfold deref. cbn [store].
  rewrite lookup_total_insert.
  destruct (decide (nextPtr q = p')) as [<-|Hne]; [done|].
  apply Hfresh. rewrite Hl. revert Hp'.
  rewrite !elem_of_app, !elem_of_cons. intros [?|[?|?]]; [tauto|congruence|tauto].
Qed.

Lemma Remove_subset e (l : list ptr) x : x ∈ Remove e l -> x ∈ l.
Proof.
  induction l as [|y l IH]; simpl; [done|].
  case_decide.
  - intros Hx. by right.
  - rewrite !elem_of_cons. intros [->|Hx]; [by left|right; by apply IH].
Qed.

Lemma Forget_fresh k q :
  queue_inv q -> pending_fresh q -> pending_fresh (Forget k q).
Proof.
  intros Hinv Hfresh. unfold Forget.
  destruct (itemsInQueue q !! k) as [item|] eqn:Hq.
  - intros p Hp. simpl in Hp. apply Remove_subset in Hp. by apply Hfresh.
  - destruct (itemsBeingProcessed q !! k) as [qi'|] eqn:Hb; [|done].
    apply pending_fresh_assign_other; [|done].
    by apply (inv_inflight_not_in_items q k).
Qed.

(** X11.  The forget flag and the re-dirty time are marks of items in the hands
    of a worker: in a state of the queue in which no pending item carries
    them, no operation puts them on a pending item. *)
Theorem pending_items_stay_fresh now k ratelimit delay err qi q :
  queue_inv q ->
  pending_fresh q ->
  (forall p q', insert now k ratelimit delay q = Ok (p, q') ->
                pending_fresh q') /\
  pending_fresh (Forget k q) /\
  pending_fresh (getNextItem_step now q).2 /\
  (forall res q', handleQueueItemObject now err qi q = Ok (res, q') ->
                  pending_fresh q').
Proof.
  intros Hinv Hfresh. split_and!.
  - intros p q'. by apply insert_fresh.
  - by apply Forget_fresh.
  - unfold getNextItem_step. destruct (items q) as [|e l] eqn:Hl; simpl; [done|].
    destruct (_ <=? 0); simpl; [|done].
    intros p Hp. simpl in Hp. rewrite decide_True in Hp by done.
    apply Hfresh. rewrite Hl. by right.
  - intros res q'. unfold handleQueueItemObject.
    set (q1 := set_itemsBeingProcessed _ q).
    assert (Hinv1 : queue_inv q1) by (by apply queue_inv_done).
    assert (Hfresh1 : pending_fresh q1) by done.
    clearbody q1.
    destruct (forget (deref q1 qi)); [by intros [= <- <-]|].
    assert (Hfin : forall err0,
      (let q2 := ratelimiter_Forget (key (deref q1 qi)) q1 in
       if negb (IsZero (redirtiedAt (deref q2 qi))) then
         bind (insert now (key (deref q2 qi)) (redirtiedWithRatelimit (deref q2 qi))
                 (Until now (redirtiedAt (deref q2 qi))) q2)
              (fun '(newQI, q3) =>
                 Ok (err0, assign newQI (set_addedViaRedirty true) q3))
       else Ok (err0, q2)) = Ok (res, q') -> pending_fresh q').
    { intros err0. cbv zeta.
      pose proof (queue_inv_ratelimiter_Forget q1 (key (deref q1 qi)) Hinv1)
        as Hinv2.
      assert (Hfresh2 : pending_fresh
                (ratelimiter_Forget (key (deref q1 qi)) q1)) by done.
      destruct (negb _); [|by intros [= <- <-]].
      destruct (insert _ _ _ _ _) as [[newQI q3]|] eqn:Hins; [|done]. simpl.
      intros [= <- <-]. apply pending_fresh_assign; [done|done|].
      by eapply insert_fresh. }
    destruct err as [e|]; [|apply Hfin].
    destruct (_ <? MaxRetries); [|apply Hfin].
    destruct (insert _ _ _ _ _) as [[newQI q2]|] eqn:Hins; [|done]. simpl.
    intros [= <- <-]. do 2 (apply pending_fresh_assign; [done|done|]).
    by eapply insert_fresh.
Qed.

Lemma pending_fresh_New (r : R) : pending_fresh (New r).
Proof. intros p Hp. by apply elem_of_nil in Hp. Qed.

End fresh.

Section drain.
Context {R : Type} `{!RateLimiter R}.
Implicit Types (q : Queue R) (k : string) (p e item qi : ptr).

(** The worker picks the front item up, after a timer wait when it is not
    due yet. *)
Lemma getNextItem_front t q e l :
  items q = e :: l ->
  exists t1,
    getNextItem 2 t q =
      Got e t1 (getNextItem_step (mkInstant t1 t1) q).2 /\
    (getNextItem_step (mkInstant t1 t1) q).2 =
      set_itemsInQueue (delete (key (deref q e)) (itemsInQueue q))
        (set_items l
           (set_itemsBeingProcessed
              (<[key (deref q e) := e]> (itemsBeingProcessed q)) q)).
Proof.
  intros Hl.
  assert (Hpick : forall t1,
    plannedToStartWorkAt (deref q e) - t1 <= 0 ->
    getNextItem_step (mkInstant t1 t1) q =
      (Picked e,
       set_itemsInQueue (delete (key (deref q e)) (itemsInQueue q))
         (set_items l
            (set_itemsBeingProcessed
               (<[key (deref q e) := e]> (itemsBeingProcessed q)) q)))).
  { intros t1 Hdue. unfold getNextItem_step. rewrite Hl. simpl.
    unfold Until. simpl.
    destruct (Z.leb_spec (plannedToStartWorkAt (deref q e) - t1) 0); [|lia].
    by rewrite decide_True. }
  unfold getNextItem.
  destruct (Z.le_gt_cases (plannedToStartWorkAt (deref q e) - t) 0)
    as [Hdue|Hwait].
  - exists t. by rewrite (Hpick t Hdue).
  - assert (Hstep : getNextItem_step (mkInstant t t) q =
                    (WaitTimer (plannedToStartWorkAt (deref q e) - t), q)).
    { unfold getNextItem_step. rewrite Hl. simpl. unfold Until. simpl.
      by destruct (Z.leb_spec (plannedToStartWorkAt (deref q e) - t) 0); [lia|]. }
    rewrite Hstep.
    exists (t + (plannedToStartWorkAt (deref q e) - t)).
    by rewrite (Hpick (t + (plannedToStartWorkAt (deref q e) - t))) by lia.
Qed.

Lemma worker_drains handler (l : list ptr) :
  (forall k, handler k = None) ->
  forall fuel t q invoked,
    queue_inv q -> pending_fresh q -> items q = l ->
    (length l < fuel)%nat ->
    exists q',
      worker fuel handler t q invoked =
        Ok (Waiting q', invoked ++ pendingKeys q) /\
      queue_inv q' /\
      items q' = [] /\
      itemsInQueue q' = ∅ /\
      itemsBeingProcessed q' = itemsBeingProcessed q /\
      ratelimiterCalls q' =
        ratelimiterCalls q ++ (CallForget <$> pendingKeys q).
Proof.
  intros Hok. induction l as [|e l IH]; intros fuel t q invoked Hinv Hfresh Hl Hfuel.
  - destruct fuel as [|fuel]; [simpl in Hfuel; lia|].
    cbn [worker getNextItem]. unfold getNextItem_step, pendingKeys.
    rewrite Hl. simpl. exists q. rewrite !app_nil_r. split_and!; try done.
    apply map_empty. intros k. destruct (itemsInQueue q !! k) as [p|] eqn:Hq; [|done].
    apply (inv_index q Hinv) in Hq as [Hp _]. rewrite Hl in Hp.
    by apply elem_of_nil in Hp.
  - destruct fuel as [|fuel]; [simpl in Hfuel; lia|].
    destruct (getNextItem_front t q e l Hl) as (t1 & Hget & Hq1).
    pose proof (getNextItem_step_inv (mkInstant t1 t1) q Hinv) as Hinv1.
    set (q1 := (getNextItem_step (mkInstant t1 t1) q).2) in *.
    assert (He : e ∈ items q) by (rewrite Hl; by left).
    destruct (Hfresh e He) as [Hf Hz].
    assert (Hd1 : forall p, deref q1 p = deref q p) by (by rewrite Hq1).
    set (k := key (deref q e)) in *.
    assert (Hb : itemsBeingProcessed q !! k = None).
    { destruct (itemsBeingProcessed q !! k) eqn:E; [|done].
      exfalso. apply (inv_exclusive q Hinv k); [|by eexists].
      exists e. by apply (inv_index q Hinv). }
    cbn [worker]. rewrite Hget, Hd1. fold k. rewrite Hok.
    unfold handleQueueItemObject.
    change (deref (set_itemsBeingProcessed ?m q1) e) with (deref q1 e).
    change (deref (ratelimiter_Forget ?k0 ?q0) e) with (deref q0 e).
    change (deref (set_itemsBeingProcessed ?m q1) e) with (deref q1 e).
    rewrite !Hd1, Hf, Hz. fold k. simpl.
    set (q2 := ratelimiter_Forget k
                 (set_itemsBeingProcessed (delete k (itemsBeingProcessed q1)) q1)).
    assert (Hinv2 : queue_inv q2).
    { by apply queue_inv_ratelimiter_Forget, queue_inv_done. }
    assert (Hi2 : items q2 = l) by (unfold q2; simpl; by rewrite Hq1).
    assert (Hd2 : forall p, deref q2 p = deref q p) by (intros p; apply Hd1).
    assert (Hfresh2 : pending_fresh q2).
    { intros p Hp. rewrite Hd2. apply Hfresh. rewrite Hl. right. by rewrite <- Hi2. }
    destruct (IH fuel t1 q2 (invoked ++ [k]) Hinv2 Hfresh2 Hi2)
      as (q' & Hrun & Hinv' & Hi' & Hq' & Hb' & Hc'); [simpl in Hfuel; lia|].
    exists q'. rewrite Hrun.
    assert (Hkeys : pendingKeys q = k :: pendingKeys q2).
    { unfold pendingKeys. rewrite Hl, Hi2. simpl. f_equal.
      apply list_fmap_ext. intros i p _. by rewrite Hd2. }
    rewrite Hkeys. split_and!; try done.
    + by rewrite <- app_assoc.
    + rewrite Hb'. unfold q2. simpl. rewrite Hq1. simpl.
      by rewrite delete_insert_id.
    + rewrite Hc'. unfold q2. simpl. rewrite Hq1. simpl.
      by rewrite <- app_assoc.
Qed.

(** X12.  A worker on its own, with a handler that always succeeds: in a state
    of the queue whose pending items are fresh, it invokes the handler
    once for every pending key, in the order of the list, resets the rate
    limiter for each of them, and then waits on an empty queue; the keys
    that other workers are processing stay as they are. *)
Theorem worker_handles_each_pending_key_once handler fuel t q :
  queue_inv q ->
  pending_fresh q ->
  (forall k, handler k = None) ->
  (length (items q) < fuel)%nat ->
  exists q',
    worker fuel handler t q [] = Ok (Waiting q', pendingKeys q) /\
    NoDup (pendingKeys q) /\
    items q' = [] /\
    itemsInQueue q' = ∅ /\
    itemsBeingProcessed q' = itemsBeingProcessed q /\
    ratelimiterCalls q' = ratelimiterCalls q ++ (CallForget <$> pendingKeys q).
Proof.
  intros Hinv Hfresh Hok Hfuel.
  destruct (worker_drains handler (items q) Hok fuel t q [] Hinv Hfresh eq_refl Hfuel)
    as (q' & Hrun & _ & Hi & Hq & Hb & Hc).
  exists q'. split_and!; try done. by apply inv_keys_NoDup.
Qed.

(** X13.  A pending key that is forgotten is not handled: the worker of the
    theorem before, started after [Forget], invokes the handler for the
    other pending keys, in their order, and not for the forgotten one. *)
Theorem forgotten_key_is_not_handled handler fuel t k q item :
  queue_inv q ->
  pending_fresh q ->
  itemsInQueue q !! k = Some item ->
  (forall k', handler k' = None) ->
  (length (items q) <= fuel)%nat ->
  exists q' ks1 ks2,
    pendingKeys q = ks1 ++ k :: ks2 /\
    worker fuel handler t (Forget k q) [] = Ok (Waiting q', ks1 ++ ks2) /\
    (k ∉ ks1 ++ ks2) /\
    items q' = [].
Proof.
  intros Hinv Hfresh Hq Hok Hfuel.
  destruct (inv_pending_elem q k item Hinv Hq) as [Hin Hk].
  destruct (NoDup_split _ _ (inv_nodup q Hinv) Hin)
    as (l1 & l2 & Hl & H1 & H2 & _).
  assert (Hi : items (Forget k q) = l1 ++ l2).
  { unfold Forget. rewrite Hq. simpl. by rewrite Hl, Remove_middle. }
  assert (Hd : forall p, deref (Forget k q) p = deref q p).
  { unfold Forget. by rewrite Hq. }
  assert (Hkeys : pendingKeys (Forget k q)
                  = ((fun p => key (deref q p)) <$> l1)
                    ++ ((fun p => key (deref q p)) <$> l2)).
  { unfold pendingKeys. rewrite Hi, fmap_app.
    f_equal; apply list_fmap_ext; intros i p _; by rewrite Hd. }
  destruct (worker_drains handler (items (Forget k q)) Hok fuel t (Forget k q) [])
    as (q' & Hrun & _ & Hi' & _); [by apply Forget_inv|by apply Forget_fresh|done| |].
  { rewrite Hi. rewrite Hl in Hfuel. rewrite !length_app in *. simpl in Hfuel. lia. }
  exists q', ((fun p => key (deref q p)) <$> l1),
         ((fun p => key (deref q p)) <$> l2).
  split_and!.
  - unfold pendingKeys. by rewrite Hl, fmap_app, fmap_cons, Hk.
  - by rewrite Hrun, Hkeys.
  - rewrite <- Hkeys. unfold pendingKeys. intros Hin'.
    apply list_elem_of_fmap in Hin' as (p & Hpk & Hp).
    assert (Hq' : itemsInQueue (Forget k q) !! k = Some p).
    { apply (inv_index _ (Forget_inv k q Hinv)). split; [done|by symmetry]. }
    unfold Forget in Hq'. rewrite Hq in Hq'. simpl in Hq'.
    by rewrite lookup_delete_eq in Hq'.
  - done.
Qed.

End drain.

Section lifecycle.
Context {R : Type} `{!RateLimiter R}.
Implicit Types (q : Queue R).


End lifecycle.

Lemma pending_fresh_pending_a_then_b : pending_fresh pending_a_then_b.
Proof.
  eapply (insert_fresh (at_time 0) "b" false 0 pending_a);
    [apply queue_inv_pending_a| |vm_compute; reflexivity].
  eapply (insert_fresh (at_time 0) "a" false 0 (New tt));
    [apply queue_inv_New|apply pending_fresh_New|vm_compute; reflexivity].
Qed.

Lemma pending_items_stay_fresh_witness :
  queue_inv pending_a_then_b /\
  pending_fresh pending_a_then_b /\
  pending_fresh (Forget "a" pending_a_then_b) /\
  pending_fresh (getNextItem_step (at_time 0) pending_a_then_b).2.
Proof.
  destruct (pending_items_stay_fresh (at_time 0) "a" false 0 None 0%nat
              pending_a_then_b queue_inv_pending_a_then_b
              pending_fresh_pending_a_then_b) as (_ & HF & Hg & _).
  split_and!; [apply queue_inv_pending_a_then_b|
               apply pending_fresh_pending_a_then_b|exact HF|exact Hg].
Defined.

Lemma worker_handles_each_pending_key_once_witness :
  queue_inv pending_a_then_b /\
  pending_fresh pending_a_then_b /\
  exists q',
    worker 3 (fun _ => None) 0 pending_a_then_b [] =
      Ok (Waiting q', ["b"; "a"]) /\
    items q' = [] /\
    ratelimiterCalls q' = [CallForget "b"; CallForget "a"].
Proof.
  split; [apply queue_inv_pending_a_then_b|].
  split; [apply pending_fresh_pending_a_then_b|].
  destruct (worker_handles_each_pending_key_once (fun _ => None) 3 0
              pending_a_then_b queue_inv_pending_a_then_b
              pending_fresh_pending_a_then_b)
    as (q' & Hrun & _ & Hi & _ & _ & Hc); [done|vm_compute; lia|].
  exists q'. split_and!; [exact Hrun|exact Hi|exact Hc].
Defined.

Lemma forgotten_key_is_not_handled_witness :
  queue_inv pending_a_then_b /\
  pending_fresh pending_a_then_b /\
  itemsInQueue pending_a_then_b !! "b" = Some 1%nat /\
  exists q',
    worker 2 (fun _ => None) 0 (Forget "b" pending_a_then_b) [] =
      Ok (Waiting q', ["a"]).
Proof.
  assert (Hq : itemsInQueue pending_a_then_b !! "b" = Some 1%nat)
    by (vm_compute; reflexivity).
  split_and!; [apply queue_inv_pending_a_then_b|
               apply pending_fresh_pending_a_then_b|exact Hq|].
  destruct (forgotten_key_is_not_handled (fun _ => None) 2 0 "b"
              pending_a_then_b 1%nat queue_inv_pending_a_then_b
              pending_fresh_pending_a_then_b Hq)
    as (q' & ks1 & ks2 & Hkeys & Hrun & _); [done|vm_compute; lia|].
  exists q'. rewrite Hrun. do 2 f_equal.
  assert (Hk : pendingKeys pending_a_then_b = ["b"; "a"])
    by (vm_compute; reflexivity).
  rewrite Hk in Hkeys.
  destruct ks1 as [|x ks1]; simpl in Hkeys.
  - by injection Hkeys as <-.
  - injection Hkeys as -> Hrest.
    destruct ks1 as [|y ks1]; simpl in Hrest; [by injection Hrest|].
    injection Hrest as _ Hrest. by destruct ks1.
Defined.


(** * Properties of the logger lookup *)

Section logger.
Variable Logger : Type.
Implicit Types (ctx : Log.Context Logger) (L logger : option Logger).

Lemma Value_WithForeign vals ctx :
  Log.Value Logger (Log.WithForeign Logger vals ctx) Log.loggerKey
  = Log.Value Logger ctx Log.loggerKey.
Proof. induction vals as [|[n v] vals IH]; simpl; [done|exact IH]. Qed.

(** X15.  A logger put into a context is the one [GetLogger] returns, whatever
    the context held before, whatever other packages put on top of it and
    whatever the default logger is. *)
Theorem GetLogger_returns_the_logger_of_the_context L ctx l vals :
  Log.GetLogger Logger L
    (Log.WithForeign Logger vals (Log.WithLogger Logger ctx (Some l)))
  = Ok l.
Proof. unfold Log.GetLogger. by rewrite Value_WithForeign. Qed.

(** X16.  A nil logger put into a context hides the loggers below it:
    [GetLogger] falls back on the default logger, and panics when there is
    none. *)
Theorem GetLogger_nil_logger_hides_the_parent L ctx vals :
  Log.GetLogger Logger L
    (Log.WithForeign Logger vals (Log.WithLogger Logger ctx None))
  = match L with
    | Some l => Ok l
    | None => Panic "default logger not initialized"
    end.
Proof. unfold Log.GetLogger. by rewrite Value_WithForeign. Qed.

Lemma reachable_Value ctx :
  Log.reachable Logger ctx ->
  exists logger, Log.Value Logger ctx Log.loggerKey = Log.toAny Logger logger.
Proof.
  induction 1 as [|ctx logger _ _|ctx n val _ IH].
  - by exists None.
  - by exists logger.
  - exact IH.
Qed.

(** X17.  On the contexts that other packages can build, [GetLogger] panics
    only for want of a logger: with a default logger it always returns,
    and without one it returns exactly when the context carries a
    logger, which is then the result. *)
Theorem GetLogger_panics_only_without_any_logger L ctx :
  Log.reachable Logger ctx ->
  (forall l, L = Some l -> exists l', Log.GetLogger Logger L ctx = Ok l') /\
  (is_panic (Log.GetLogger Logger L ctx) <->
     L = None /\ Log.Value Logger ctx Log.loggerKey = Log.anyNil) /\
  (forall l, Log.Value Logger ctx Log.loggerKey = Log.aLogger Logger l ->
             Log.GetLogger Logger L ctx = Ok l).
Proof.
  intros Hctx. destruct (reachable_Value ctx Hctx) as [logger Hv].
  unfold Log.GetLogger. rewrite Hv. split_and!.
  - intros l ->. destruct logger; simpl; by eexists.
  - destruct logger, L; simpl; split; try done; by intros [? ?].
  - intros l Hl. destruct logger; simpl in *; [by injection Hl as ->|done].
Qed.

End logger.

Lemma GetLogger_panics_only_without_any_logger_witness :
  Log.reachable nat (Log.WithValue nat Log.Background (Log.foreignKey 1)
                       (Log.notLogger 7)) /\
  is_panic (Log.GetLogger nat None
              (Log.WithValue nat Log.Background (Log.foreignKey 1)
                 (Log.notLogger 7))) /\
  Log.GetLogger nat (Some 3%nat)
    (Log.WithValue nat Log.Background (Log.foreignKey 1) (Log.notLogger 7))
  = Ok 3%nat.
Proof.
  assert (Hctx : Log.reachable nat
            (Log.WithValue nat Log.Background (Log.foreignKey 1)
               (Log.notLogger 7)))
    by (apply Log.reachable_WithValue, Log.reachable_Background).
  destruct (GetLogger_panics_only_without_any_logger nat None _ Hctx)
    as (_ & Hp & _).
  split_and!; [exact Hctx| |reflexivity].
  apply Hp. by split.
Defined.

(** * Further properties of the pod requests *)

Section limits.
Variable PodOverheadEnabled : bool.
Implicit Types (name : string) (cs : list Container).

Lemma sum_loop_lookup_limits cs (reqs limits : ResourceList) name :
  (foldl (fun '(reqs, limits) container =>
            (addResourceList reqs (Requests (Resources container)),
             addResourceList limits (Limits (Resources container))))
         (reqs, limits) cs).2 !! name =
  foldl withOverhead (limits !! name)
        ((fun c => Limits (Resources c) !! name) <$> cs).
Proof.
  revert reqs limits. induction cs as [|c cs IH]; intros reqs limits; [done|].
  simpl. by rewrite IH, addResourceList_lookup.
Qed.

Lemma max_loop_lookup_limits cs (reqs limits : ResourceList) name :
  (foldl (fun '(reqs, limits) container =>
            (maxResourceList reqs (Requests (Resources container)),
             maxResourceList limits (Limits (Resources container))))
         (reqs, limits) cs).2 !! name =
  foldl greater (limits !! name)
        ((fun c => Limits (Resources c) !! name) <$> cs).
Proof.
  revert reqs limits. induction cs as [|c cs IH]; intros reqs limits; [done|].
  simpl. by rewrite IH, maxResourceList_lookup.
Qed.

Lemma foldl_sum_Some_limits a cs name :
  foldl withOverhead (Some a) ((fun c => Limits (Resources c) !! name) <$> cs)
  = Some (a + total (limited name cs)).
Proof.
  revert a. induction cs as [|c cs IH]; intros a; simpl.
  - f_equal. unfold total. simpl. lia.
  - unfold limited. simpl.
    destruct (Limits (Resources c) !! name) as [x|]; simpl.
    + rewrite IH. f_equal. unfold limited, total. simpl. lia.
    + by rewrite IH.
Qed.

Lemma foldl_sum_None_limits cs name :
  foldl withOverhead None ((fun c => Limits (Resources c) !! name) <$> cs)
  = match limited name cs with
    | [] => None
    | l => Some (total l)
    end.
Proof.
  induction cs as [|c cs IH]; simpl; [done|].
  unfold limited. simpl.
  destruct (Limits (Resources c) !! name) as [x|]; simpl; [|exact IH].
  by rewrite foldl_sum_Some_limits.
Qed.

Lemma foldl_max_Some_limits a cs name :
  foldl greater (Some a) ((fun c => Limits (Resources c) !! name) <$> cs)
  = Some (greatest a (limited name cs)).
Proof.
  revert a. induction cs as [|c cs IH]; intros a; simpl; [done|].
  unfold limited. simpl.
  destruct (Limits (Resources c) !! name) as [x|]; simpl.
  - rewrite IH. by rewrite greatest_max.
  - by rewrite IH.
Qed.

Lemma foldl_max_None_limits cs name :
  foldl greater None ((fun c => Limits (Resources c) !! name) <$> cs)
  = match limited name cs with
    | [] => None
    | i :: inits => Some (greatest i inits)
    end.
Proof.
  induction cs as [|c cs IH]; simpl; [done|].
  unfold limited. simpl.
  destruct (Limits (Resources c) !! name) as [x|]; simpl; [|exact IH].
  by rewrite foldl_max_Some_limits.
Qed.

(** The loop that puts the overhead on the limits. *)
Lemma overhead_on_limits_lookup (limits overhead : ResourceList) name :
  map_fold (fun name quantity (limits : ResourceList) =>
              match limits !! name with
              | Some value =>
                  if negb (value =? 0) then <[name := value + quantity]> limits
                  else limits
              | None => limits
              end) limits overhead !! name
  = limitWithOverhead (limits !! name) (overhead !! name).
Proof.
  revert name.
  apply (map_fold_weak_ind
    (fun (r m : ResourceList) =>
       forall name, r !! name = limitWithOverhead (limits !! name) (m !! name))).
  - intros name. rewrite lookup_empty. by destruct (limits !! name).
  - intros i x m r Hi IH name.
    pose proof (IH i) as Hri. rewrite Hi in Hri.
    assert (Hri' : r !! i = limits !! i) by (rewrite Hri; by destruct (limits !! i)).
    destruct (decide (i = name)) as [<-|Hne].
    + rewrite lookup_insert_eq, Hri'.
      destruct (limits !! i) as [v|]; simpl; [|done].
      destruct (Z.eqb_spec v 0); simpl; [done|]. by rewrite lookup_insert_eq.
    + rewrite lookup_insert_ne by done.
      destruct (r !! i) as [v|]; [|apply IH].
      destruct (negb (v =? 0)); [rewrite lookup_insert_ne by done|]; apply IH.
Qed.

Lemma PodRequestsAndLimits_limits_lookup pod name :
  (PodRequestsAndLimits PodOverheadEnabled pod).2 !! name =
  limitWithOverhead (containerLimit pod name)
                    (countedOverhead PodOverheadEnabled pod name).
Proof.
  unfold PodRequestsAndLimits.
  pose proof (sum_loop_lookup_limits (Containers (Spec pod)) ∅ ∅ name) as Hsum.
  destruct (foldl _ (∅, ∅) (Containers (Spec pod))) as [reqs limits].
  pose proof (max_loop_lookup_limits (InitContainers (Spec pod)) reqs limits name)
    as Hmax.
  destruct (foldl _ (reqs, limits) (InitContainers (Spec pod))) as [reqs' limits'].
  simpl in Hsum, Hmax.
  assert (Hbase : limits' !! name = containerLimit pod name).
  { rewrite Hmax, Hsum, lookup_empty, foldl_sum_None_limits. unfold containerLimit.
    destruct (limited name (Containers (Spec pod))) as [|c cs].
    - by rewrite foldl_max_None_limits.
    - by rewrite foldl_max_Some_limits. }
  unfold countedOverhead.
  destruct (Overhead (Spec pod)) as [overhead|]; simpl.
  - destruct PodOverheadEnabled; simpl.
    + by rewrite overhead_on_limits_lookup, Hbase.
    + rewrite Hbase. by destruct (containerLimit pod name).
  - rewrite Hbase. by destruct (containerLimit pod name).
Qed.

(** X18.  The limits that [PodRequestsAndLimits] returns, resource by resource:
    the sum of the containers' limits raised to the greatest init
    container limit, and on top of it the pod's overhead when that counts
    and the limit is set and not zero; the overhead alone never makes a
    limit. *)
Theorem PodRequestsAndLimits_limits pod name :
  (PodRequestsAndLimits PodOverheadEnabled pod).2 !! name =
    limitWithOverhead (containerLimit pod name)
                      (countedOverhead PodOverheadEnabled pod name) /\
  (containerLimit pod name = None ->
   (PodRequestsAndLimits PodOverheadEnabled pod).2 !! name = None) /\
  (containerLimit pod name = Some 0 ->
   (PodRequestsAndLimits PodOverheadEnabled pod).2 !! name = Some 0).
Proof.
  rewrite PodRequestsAndLimits_limits_lookup. split_and!; [done| |].
  - by intros ->.
  - intros ->. simpl. by destruct (countedOverhead _ _ _).
Qed.

End limits.

Section pod_algebra.
Variable PodOverheadEnabled : bool.
Variable Resource : Type.
Variable ConvertResource : ResourceList -> option Resource.
Implicit Types (name : string) (cs : list Container).

Lemma total_Permutation (l l' : list Z) : l ≡ₚ l' -> total l = total l'.
Proof.
  unfold total. induction 1 as [|x l l' _ IH|x y l|l l' l'' _ IH1 _ IH2]; simpl;
    [done|lia|lia|congruence].
Qed.

Lemma greatest_Permutation x (l l' : list Z) :
  l ≡ₚ l' -> greatest x l = greatest x l'.
Proof.
  unfold greatest. induction 1 as [|y l l' _ IH|y z l|l l' l'' _ IH1 _ IH2];
    simpl; [done|lia|lia|congruence].
Qed.

Lemma greatest_le x (l : list Z) y :
  greatest x l <= y <-> Forall (fun z => z <= y) (x :: l).
Proof.
  rewrite Forall_cons. unfold greatest.
  induction l as [|z l IH]; simpl.
  - rewrite Forall_nil. tauto.
  - rewrite Forall_cons. split.
    + intros Hmax. assert (foldr Z.max x l <= y) as Hrest by lia.
      apply IH in Hrest. split_and!; [tauto|lia|tauto].
    + intros (Hx & Hz & Hl). assert (foldr Z.max x l <= y) by (apply IH; tauto).
      lia.
Qed.

Lemma greatest_head_Permutation i j (l l' : list Z) :
  i :: l ≡ₚ j :: l' -> greatest i l = greatest j l'.
Proof.
  intros Hperm. apply Z.le_antisymm.
  - apply greatest_le. rewrite Hperm. by apply greatest_le.
  - apply greatest_le. rewrite <- Hperm. by apply greatest_le.
Qed.

Lemma one_resource_Permutation (l l' ins ins' : list Z) :
  l ≡ₚ l' -> ins ≡ₚ ins' ->
  match l, ins with
  | [], [] => None
  | [], i :: inits => Some (greatest i inits)
  | c :: cs, inits => Some (greatest (total (c :: cs)) inits)
  end =
  match l', ins' with
  | [], [] => None
  | [], i :: inits => Some (greatest i inits)
  | c :: cs, inits => Some (greatest (total (c :: cs)) inits)
  end.
Proof.
  intros Hl Hins. destruct l as [|c l], l' as [|c' l'].
  - destruct ins as [|i ins], ins' as [|i' ins']; [done| | |].
    + by apply Permutation_nil_cons in Hins.
    + symmetry in Hins. by apply Permutation_nil_cons in Hins.
    + f_equal. by apply greatest_head_Permutation.
  - by apply Permutation_nil_cons in Hl.
  - symmetry in Hl. by apply Permutation_nil_cons in Hl.
  - f_equal. rewrite (total_Permutation _ _ Hl). by apply greatest_Permutation.
Qed.

(** X19.  The order in which a pod lists its containers and its init containers
    does not matter to the requests and limits of the pod. *)
Theorem PodRequestsAndLimits_ignores_container_order pod pod' :
  Containers (Spec pod) ≡ₚ Containers (Spec pod') ->
  InitContainers (Spec pod) ≡ₚ InitContainers (Spec pod') ->
  Overhead (Spec pod) = Overhead (Spec pod') ->
  PodRequestsAndLimits PodOverheadEnabled pod
    = PodRequestsAndLimits PodOverheadEnabled pod' /\
  GetRequestFromPod PodOverheadEnabled Resource ConvertResource (Some pod)
    = GetRequestFromPod PodOverheadEnabled Resource ConvertResource (Some pod').
Proof.
  intros Hc Hi Ho.
  assert (Heq : PodRequestsAndLimits PodOverheadEnabled pod
                = PodRequestsAndLimits PodOverheadEnabled pod').
  { apply injective_projections; apply map_eq; intros name.
    - rewrite !PodRequestsAndLimits_requests.
      unfold countedOverhead. rewrite Ho. f_equal.
      unfold containerRequest, requested.
      apply one_resource_Permutation; by apply omap_Permutation.
    - rewrite !PodRequestsAndLimits_limits_lookup.
      unfold countedOverhead. rewrite Ho. f_equal.
      unfold containerLimit, limited.
      apply one_resource_Permutation; by apply omap_Permutation. }
  split; [done|]. unfold GetRequestFromPod. by rewrite Heq.
Qed.

Lemma requested_same cs cs' name :
  Forall2 (fun c c' => Requests (Resources c) = Requests (Resources c')) cs cs' ->
  requested name cs = requested name cs'.
Proof.
  unfold requested. induction 1 as [|c c' cs cs' Hc _ IH]; [done|].
  simpl. rewrite Hc.
  destruct (Requests (Resources c') !! name); [f_equal|]; exact IH.
Qed.

(** X20.  [GetRequestFromPod] does not look at limits: two pods whose containers
    request the same, one by one, and that have the same overhead get the
    same result, whatever their limits are. *)
Theorem GetRequestFromPod_ignores_limits pod pod' :
  Forall2 (fun c c' => Requests (Resources c) = Requests (Resources c'))
          (Containers (Spec pod)) (Containers (Spec pod')) ->
  Forall2 (fun c c' => Requests (Resources c) = Requests (Resources c'))
          (InitContainers (Spec pod)) (InitContainers (Spec pod')) ->
  Overhead (Spec pod) = Overhead (Spec pod') ->
  GetRequestFromPod PodOverheadEnabled Resource ConvertResource (Some pod)
    = GetRequestFromPod PodOverheadEnabled Resource ConvertResource (Some pod').
Proof.
  intros Hc Hi Ho.
  assert (Heq : (PodRequestsAndLimits PodOverheadEnabled pod).1
                = (PodRequestsAndLimits PodOverheadEnabled pod').1).
  { apply map_eq. intros name. rewrite !PodRequestsAndLimits_requests.
    unfold countedOverhead, containerRequest. rewrite Ho.
    by rewrite (requested_same _ _ name Hc), (requested_same _ _ name Hi). }
  unfold GetRequestFromPod.
  destruct (PodRequestsAndLimits PodOverheadEnabled pod),
           (PodRequestsAndLimits PodOverheadEnabled pod').
  simpl in Heq. by rewrite Heq.
Qed.

End pod_algebra.

(** X21.  [addResourceList] and [maxResourceList] as operations on resource
    lists: neither depends on which list is the accumulator, adding the
    empty list changes nothing, and taking the maximum with oneself
    changes nothing. *)
Theorem resource_list_operations (a b : ResourceList) :
  addResourceList a b = addResourceList b a /\
  maxResourceList a b = maxResourceList b a /\
  addResourceList a ∅ = a /\
  addResourceList ∅ a = a /\
  maxResourceList a a = a.
Proof.
  split_and!; apply map_eq; intros name;
    rewrite ?addResourceList_lookup, ?maxResourceList_lookup, ?lookup_empty.
  - destruct (a !! name), (b !! name); simpl; try done. f_equal. lia.
  - destruct (a !! name), (b !! name); simpl; try done. f_equal. lia.
  - by destruct (a !! name).
  - by destruct (a !! name).
  - destruct (a !! name); simpl; [|done]. f_equal. lia.
Qed.

Lemma PodRequestsAndLimits_ignores_container_order_witness :
  [bounded "cpu" 1 2; bounded "cpu" 3 0] ≡ₚ [bounded "cpu" 3 0; bounded "cpu" 1 2] /\
  PodRequestsAndLimits true
    (mkPod (mkPodSpec [] [bounded "cpu" 1 2; bounded "cpu" 3 0]
              (Some {[ "cpu" := 1 ]})))
  = PodRequestsAndLimits true
      (mkPod (mkPodSpec [] [bounded "cpu" 3 0; bounded "cpu" 1 2]
                (Some {[ "cpu" := 1 ]}))).
Proof.
  assert (Hperm : [bounded "cpu" 1 2; bounded "cpu" 3 0]
                  ≡ₚ [bounded "cpu" 3 0; bounded "cpu" 1 2])
    by apply Permutation_swap.
  split; [exact Hperm|].
  apply (PodRequestsAndLimits_ignores_container_order true ResourceList Some
           (mkPod (mkPodSpec [] [bounded "cpu" 1 2; bounded "cpu" 3 0]
                     (Some {[ "cpu" := 1 ]})))
           (mkPod (mkPodSpec [] [bounded "cpu" 3 0; bounded "cpu" 1 2]
                     (Some {[ "cpu" := 1 ]}))));
    [exact Hperm|reflexivity|reflexivity].
Defined.

Lemma GetRequestFromPod_ignores_limits_witness :
  GetRequestFromPod false ResourceList Some
    (Some (mkPod (mkPodSpec [] [bounded "cpu" 1 2] None)))
  = GetRequestFromPod false ResourceList Some
      (Some (mkPod (mkPodSpec [] [bounded "cpu" 1 9] None))).
Proof.
  apply (GetRequestFromPod_ignores_limits false ResourceList Some
           (mkPod (mkPodSpec [] [bounded "cpu" 1 2] None))
           (mkPod (mkPodSpec [] [bounded "cpu" 1 9] None))).
  - repeat constructor.
  - constructor.
  - reflexivity.
Defined.

Lemma PodRequestsAndLimits_limits_witness :
  containerLimit (mkPod (mkPodSpec [] [bounded "cpu" 1 0]
                           (Some {[ "cpu" := 1; "memory" := 5 ]}))) "cpu"
    = Some 0 /\
  (PodRequestsAndLimits true
     (mkPod (mkPodSpec [] [bounded "cpu" 1 0]
               (Some {[ "cpu" := 1; "memory" := 5 ]})))).2 !! "cpu" = Some 0 /\
  (PodRequestsAndLimits true
     (mkPod (mkPodSpec [] [bounded "cpu" 1 0]
               (Some {[ "cpu" := 1; "memory" := 5 ]})))).2 !! "memory" = None.
Proof.
  assert (Hzero : containerLimit
            (mkPod (mkPodSpec [] [bounded "cpu" 1 0]
                      (Some {[ "cpu" := 1; "memory" := 5 ]}))) "cpu" = Some 0)
    by (vm_compute; reflexivity).
  split; [exact Hzero|]. split.
  - destruct (PodRequestsAndLimits_limits true
                (mkPod (mkPodSpec [] [bounded "cpu" 1 0]
                          (Some {[ "cpu" := 1; "memory" := 5 ]}))) "cpu")
      as (_ & _ & H0).
    exact (H0 Hzero).
  - destruct (PodRequestsAndLimits_limits true
                (mkPod (mkPodSpec [] [bounded "cpu" 1 0]
                          (Some {[ "cpu" := 1; "memory" := 5 ]}))) "memory")
      as (_ & Hnone & _).
    apply Hnone. vm_compute. reflexivity.
Defined.
